(** * Fooyin library scanner: a shallow embedding of
      [src/core/library/libraryscanner.cpp] and the properties of its
      file enumerator, identity matching, batch writer and scan loop. *)

From stdpp Require Import gmap strings list fin_maps sorting pretty.
From Stdlib Require Import ZArith Ascii String Permutation Sorted.

Local Open Scope Z_scope.

(** ** Paths

    A [QString] path is a [string]; [operator<] on [QString] compares code
    units lexicographically, which on 8-bit characters is [String.ltb]. *)
Module Path.

(** The part of [s] after the last occurrence of [c], if [c] occurs. *)
Fixpoint afterLast (c : ascii) (s : string) : option string :=
  match s with
  | EmptyString => None
  | String a r =>
      match afterLast c r with
      | Some t => Some t
      | None => if Ascii.eqb a c then Some r else None
      end
  end.

(** [QFileInfo::fileName]: the path without its directory part. *)
Definition fileName (p : string) : string :=
  match afterLast "/" p with Some t => t | None => p end.

(** [QFileInfo::suffix]: what follows the last dot of the file name. *)
Definition suffix (p : string) : string :=
  match afterLast "." (fileName p) with Some t => t | None => ""%string end.

Definition lowerAscii (a : ascii) : ascii :=
  let n := nat_of_ascii a in
  if (Nat.leb 65 n && Nat.leb n 90)%bool then ascii_of_nat (n + 32) else a.

Fixpoint toLower (s : string) : string :=
  match s with
  | EmptyString => EmptyString
  | String a r => String (lowerAscii a) (toLower r)
  end.

(** [a.suffix().compare(u"cue", Qt::CaseInsensitive) == 0] *)
Definition isCue (p : string) : bool := String.eqb (toLower (suffix p)) "cue".

(** [a.filePath() < b.filePath()] *)
Definition less (a b : string) : bool := String.ltb a b.

(** The order [less] sorts into: [b] does not come before [a]. *)
Definition le (a b : string) : Prop := less b a = false.

End Path.

(** ** Sorting

    [std::stable_sort] with a strict comparator [lt], as insertion from the
    right: an element is placed after everything that compares before it and
    before everything else, so equivalent elements keep their order. *)
Section StableSort.
Context {A : Type} (lt : A -> A -> bool).

Fixpoint stable_insert (x : A) (l : list A) : list A :=
  match l with
  | [] => [x]
  | y :: r => if lt y x then y :: stable_insert x r else x :: y :: r
  end.

Fixpoint stable_sort (l : list A) : list A :=
  match l with
  | [] => []
  | x :: r => stable_insert x (stable_sort r)
  end.
End StableSort.

(** ** File enumerator (anonymous namespace of libraryscanner.cpp) *)

(** The comparator of the second pass of [sortFiles]: true exactly when [a]
    is a cue sheet and [b] is not. *)
Definition cueFirst (a b : string) : bool :=
  let aIsCue := Path.isCue a in
  let bIsCue := Path.isCue b in
  if (aIsCue && negb bIsCue)%bool then true
  else if (negb aIsCue && bIsCue)%bool then false
  else false.

(** The first pass, [std::sort] by [filePath]: the comparator is a strict
    total order on paths, so every sorting algorithm gives this list. *)
Definition sortByPath (files : list string) : list string :=
  stable_sort Path.less files.

Definition sortFiles (files : list string) : list string :=
  stable_sort cueFirst (sortByPath files).

Definition notCue (f : string) : bool := negb (Path.isCue f).

(** [QUrl], as far as [getFiles] looks at it. *)
Record QUrl := mkUrl { isLocalFile : bool; toLocalFile : string }.

(** What the enumerator and the scanner ask of the file system ([QFileInfo],
    [QDirIterator], [QFile]). *)
Record FileSystem := {
  fs_isDir : string -> bool;
  fs_exists : string -> bool;
  fs_absoluteFilePath : string -> string;
  (** [lastModified().toMSecsSinceEpoch()], [None] for an invalid date *)
  fs_lastModified : string -> option Z;
  fs_size : string -> Z;
  fs_canOpen : string -> bool;
  (** the files (path, size) a recursive [QDirIterator] over a directory
      yields under the given name filters *)
  fs_dirIterator : string -> list string -> list (string * Z);
}.

Definition removeAll (ext : string) (l : list string) : list string :=
  List.filter (fun e => negb (String.eqb e ext)) l.

Definition contains (l : list string) (s : string) : bool :=
  existsb (String.eqb s) l.

Section Enumerator.
Context (fs : FileSystem).
(** [Utils::extensionsToWildcards] is not part of these sources. *)
Context (extensionsToWildcards : list string -> list string).

Definition filesOfUrl (nameFilters playlistExtensions : list string)
    (url : QUrl) : list string :=
  if negb (isLocalFile url) then []
  else
    let file := toLocalFile url in
    if fs_isDir fs file then
      map fst (List.filter (fun info => Z.ltb 0 (snd info))
                 (fs_dirIterator fs (fs_absoluteFilePath fs file)
                    (extensionsToWildcards nameFilters)))
    else if contains playlistExtensions (Path.suffix file)
    then [fs_absoluteFilePath fs file]
    else [].

Definition getFiles (urls : list QUrl)
    (restrictExtensions excludeExtensions playlistExtensions : list string)
    : list string :=
  let nameFilters := fold_left (fun acc ext => removeAll ext acc)
                       excludeExtensions restrictExtensions in
  sortFiles (flat_map (filesOfUrl nameFilters playlistExtensions) urls).

(** The overload for one base directory. *)
Definition getFilesIn (baseDirectory : string)
    (restrictExtensions excludeExtensions : list string) : list string :=
  getFiles [mkUrl true baseDirectory] restrictExtensions excludeExtensions [].
End Enumerator.

(** ** Data model *)

(** Modelled from the spec: the [Track] class ([core/track.h] is not among
    the sources). The fields are the attributes the scanner reads or writes;
    [t_tags] stands for the remaining tag fields. An identifier is negative
    until the track is persisted, a library id is negative outside any
    library. *)
Record Track := mkTrack {
  t_id : Z;
  t_libraryId : Z;
  t_filepath : string;
  t_subsong : Z;
  t_cuePath : string;
  t_hash : string;
  t_duration : Z;
  t_fileSize : Z;
  t_addedTime : Z;
  t_modifiedTime : Z;
  t_isEnabled : bool;
  t_extraTags : list (string * list string);
  t_tags : string;
}.

(** [Track{}] and [Track{filepath, subsong}] *)
Definition emptyTrack : Track :=
  mkTrack (-1) (-1) "" 0 "" "" 0 0 0 0 true [] "".

Definition setId (t : Track) (v : Z) : Track :=
  mkTrack v (t_libraryId t) (t_filepath t) (t_subsong t) (t_cuePath t)
    (t_hash t) (t_duration t) (t_fileSize t) (t_addedTime t)
    (t_modifiedTime t) (t_isEnabled t) (t_extraTags t) (t_tags t).
Definition setLibraryId (t : Track) (v : Z) : Track :=
  mkTrack (t_id t) v (t_filepath t) (t_subsong t) (t_cuePath t)
    (t_hash t) (t_duration t) (t_fileSize t) (t_addedTime t)
    (t_modifiedTime t) (t_isEnabled t) (t_extraTags t) (t_tags t).
Definition setFilePath (t : Track) (v : string) : Track :=
  mkTrack (t_id t) (t_libraryId t) v (t_subsong t) (t_cuePath t)
    (t_hash t) (t_duration t) (t_fileSize t) (t_addedTime t)
    (t_modifiedTime t) (t_isEnabled t) (t_extraTags t) (t_tags t).
Definition setSubsong (t : Track) (v : Z) : Track :=
  mkTrack (t_id t) (t_libraryId t) (t_filepath t) v (t_cuePath t)
    (t_hash t) (t_duration t) (t_fileSize t) (t_addedTime t)
    (t_modifiedTime t) (t_isEnabled t) (t_extraTags t) (t_tags t).
Definition setCuePath (t : Track) (v : string) : Track :=
  mkTrack (t_id t) (t_libraryId t) (t_filepath t) (t_subsong t) v
    (t_hash t) (t_duration t) (t_fileSize t) (t_addedTime t)
    (t_modifiedTime t) (t_isEnabled t) (t_extraTags t) (t_tags t).
Definition setHash (t : Track) (v : string) : Track :=
  mkTrack (t_id t) (t_libraryId t) (t_filepath t) (t_subsong t) (t_cuePath t)
    v (t_duration t) (t_fileSize t) (t_addedTime t)
    (t_modifiedTime t) (t_isEnabled t) (t_extraTags t) (t_tags t).
Definition setFileSize (t : Track) (v : Z) : Track :=
  mkTrack (t_id t) (t_libraryId t) (t_filepath t) (t_subsong t) (t_cuePath t)
    (t_hash t) (t_duration t) v (t_addedTime t)
    (t_modifiedTime t) (t_isEnabled t) (t_extraTags t) (t_tags t).
Definition setAddedTime (t : Track) (v : Z) : Track :=
  mkTrack (t_id t) (t_libraryId t) (t_filepath t) (t_subsong t) (t_cuePath t)
    (t_hash t) (t_duration t) (t_fileSize t) v
    (t_modifiedTime t) (t_isEnabled t) (t_extraTags t) (t_tags t).
Definition setModifiedTime (t : Track) (v : Z) : Track :=
  mkTrack (t_id t) (t_libraryId t) (t_filepath t) (t_subsong t) (t_cuePath t)
    (t_hash t) (t_duration t) (t_fileSize t) (t_addedTime t)
    v (t_isEnabled t) (t_extraTags t) (t_tags t).
Definition setIsEnabled (t : Track) (v : bool) : Track :=
  mkTrack (t_id t) (t_libraryId t) (t_filepath t) (t_subsong t) (t_cuePath t)
    (t_hash t) (t_duration t) (t_fileSize t) (t_addedTime t)
    (t_modifiedTime t) v (t_extraTags t) (t_tags t).

Definition newTrack (filepath : string) (subsong : Z) : Track :=
  setSubsong (setFilePath emptyTrack filepath) subsong.

Definition isInLibrary (t : Track) : bool := Z.leb 0 (t_libraryId t).
Definition isInDatabase (t : Track) : bool := Z.leb 0 (t_id t).
Definition hasCue (t : Track) : bool := negb (String.eqb (t_cuePath t) "").
Definition extraTag (t : Track) (key : string) : list string :=
  match List.find (fun kv => String.eqb (fst kv) key) (t_extraTags t) with
  | Some kv => snd kv
  | None => []
  end.
Definition hasExtraTag (t : Track) (key : string) : bool :=
  existsb (fun kv => String.eqb (fst kv) key) (t_extraTags t).

(** What [Track] derives from its fields by code outside these sources. *)
Class TrackOps := {
  filename : Track -> string;
  uniqueFilepath : Track -> string;
  isInArchive : Track -> bool;
  archivePath : Track -> string;
  (** the value [generateHash] stores *)
  hashOf : Track -> string;
}.

Definition generateHash `{TrackOps} (t : Track) : Track := setHash t (hashOf t).

Inductive Status := StatusIdle | StatusPending | StatusScanning | StatusMonitoring.

Record LibraryInfo := mkLibrary {
  lib_id : Z;
  lib_path : string;
  lib_name : string;
  lib_status : Status;
}.

Definition setStatus (l : LibraryInfo) (st : Status) : LibraryInfo :=
  mkLibrary (lib_id l) (lib_path l) (lib_name l) st.

Inductive RunState := Idle | Running | Paused.

Definition RunState_eqb (a b : RunState) : bool :=
  match a, b with
  | Idle, Idle | Running, Running | Paused, Paused => true
  | _, _ => false
  end.

(** What a run does to the outside: calls that reach the persisted store or
    the readers, log lines, and signals. *)
Inductive Event :=
| DbStoreTracks (tracks : list Track)
| DbUpdateTracks (tracks : list Track)
| ScanUpdate (addedTracks updatedTracks : list Track)
| ProgressChanged (current total : Z)
| StatusChanged (library : LibraryInfo)
| Finished
| Warning (file : string)
| ReadTrackMetadata (file : string)
| ReadTracks (file : string)
| ReadPlaylistFile (file : string)
| ReadEmbeddedPlaylist (file : string)
| DestroyThreadInstance.

Record ScanState := mkState {
  m_monitor : bool;
  m_currentLibrary : LibraryInfo;
  m_tracksToStore : list Track;
  m_tracksToUpdate : list Track;
  m_trackPaths : gmap string (list Track);
  m_existingArchives : gmap string (list Track);
  m_missingFiles : gmap string Track;
  m_missingHashes : gmap string Track;
  m_existingCueTracks : gmap string (list Track);
  m_missingCueTracks : gmap string (list Track);
  m_cueFilesScanned : gset string;
  m_filesScanned : gset string;
  m_totalFiles : nat;
  m_watchers : gmap Z (list string);
  (** [Worker]'s state as the scanner itself last set it *)
  m_state : RunState;
  (** how often the run has looked at the worker state so far *)
  m_polls : nat;
  (** calls to collaborators and signals emitted, oldest first *)
  m_log : list Event;
}.

Definition set_monitor (v : bool) (s : ScanState) : ScanState :=
  mkState v (m_currentLibrary s) (m_tracksToStore s) (m_tracksToUpdate s) (m_trackPaths s) (m_existingArchives s) (m_missingFiles s) (m_missingHashes s) (m_existingCueTracks s) (m_missingCueTracks s) (m_cueFilesScanned s) (m_filesScanned s) (m_totalFiles s) (m_watchers s) (m_state s) (m_polls s) (m_log s).

Definition set_currentLibrary (v : LibraryInfo) (s : ScanState) : ScanState :=
  mkState (m_monitor s) v (m_tracksToStore s) (m_tracksToUpdate s) (m_trackPaths s) (m_existingArchives s) (m_missingFiles s) (m_missingHashes s) (m_existingCueTracks s) (m_missingCueTracks s) (m_cueFilesScanned s) (m_filesScanned s) (m_totalFiles s) (m_watchers s) (m_state s) (m_polls s) (m_log s).

Definition set_tracksToStore (v : list Track) (s : ScanState) : ScanState :=
  mkState (m_monitor s) (m_currentLibrary s) v (m_tracksToUpdate s) (m_trackPaths s) (m_existingArchives s) (m_missingFiles s) (m_missingHashes s) (m_existingCueTracks s) (m_missingCueTracks s) (m_cueFilesScanned s) (m_filesScanned s) (m_totalFiles s) (m_watchers s) (m_state s) (m_polls s) (m_log s).

Definition set_tracksToUpdate (v : list Track) (s : ScanState) : ScanState :=
  mkState (m_monitor s) (m_currentLibrary s) (m_tracksToStore s) v (m_trackPaths s) (m_existingArchives s) (m_missingFiles s) (m_missingHashes s) (m_existingCueTracks s) (m_missingCueTracks s) (m_cueFilesScanned s) (m_filesScanned s) (m_totalFiles s) (m_watchers s) (m_state s) (m_polls s) (m_log s).

Definition set_trackPaths (v : gmap string (list Track)) (s : ScanState) : ScanState :=
  mkState (m_monitor s) (m_currentLibrary s) (m_tracksToStore s) (m_tracksToUpdate s) v (m_existingArchives s) (m_missingFiles s) (m_missingHashes s) (m_existingCueTracks s) (m_missingCueTracks s) (m_cueFilesScanned s) (m_filesScanned s) (m_totalFiles s) (m_watchers s) (m_state s) (m_polls s) (m_log s).

Definition set_existingArchives (v : gmap string (list Track)) (s : ScanState) : ScanState :=
  mkState (m_monitor s) (m_currentLibrary s) (m_tracksToStore s) (m_tracksToUpdate s) (m_trackPaths s) v (m_missingFiles s) (m_missingHashes s) (m_existingCueTracks s) (m_missingCueTracks s) (m_cueFilesScanned s) (m_filesScanned s) (m_totalFiles s) (m_watchers s) (m_state s) (m_polls s) (m_log s).

Definition set_missingFiles (v : gmap string Track) (s : ScanState) : ScanState :=
  mkState (m_monitor s) (m_currentLibrary s) (m_tracksToStore s) (m_tracksToUpdate s) (m_trackPaths s) (m_existingArchives s) v (m_missingHashes s) (m_existingCueTracks s) (m_missingCueTracks s) (m_cueFilesScanned s) (m_filesScanned s) (m_totalFiles s) (m_watchers s) (m_state s) (m_polls s) (m_log s).

Definition set_missingHashes (v : gmap string Track) (s : ScanState) : ScanState :=
  mkState (m_monitor s) (m_currentLibrary s) (m_tracksToStore s) (m_tracksToUpdate s) (m_trackPaths s) (m_existingArchives s) (m_missingFiles s) v (m_existingCueTracks s) (m_missingCueTracks s) (m_cueFilesScanned s) (m_filesScanned s) (m_totalFiles s) (m_watchers s) (m_state s) (m_polls s) (m_log s).

Definition set_existingCueTracks (v : gmap string (list Track)) (s : ScanState) : ScanState :=
  mkState (m_monitor s) (m_currentLibrary s) (m_tracksToStore s) (m_tracksToUpdate s) (m_trackPaths s) (m_existingArchives s) (m_missingFiles s) (m_missingHashes s) v (m_missingCueTracks s) (m_cueFilesScanned s) (m_filesScanned s) (m_totalFiles s) (m_watchers s) (m_state s) (m_polls s) (m_log s).

Definition set_missingCueTracks (v : gmap string (list Track)) (s : ScanState) : ScanState :=
  mkState (m_monitor s) (m_currentLibrary s) (m_tracksToStore s) (m_tracksToUpdate s) (m_trackPaths s) (m_existingArchives s) (m_missingFiles s) (m_missingHashes s) (m_existingCueTracks s) v (m_cueFilesScanned s) (m_filesScanned s) (m_totalFiles s) (m_watchers s) (m_state s) (m_polls s) (m_log s).

Definition set_cueFilesScanned (v : gset string) (s : ScanState) : ScanState :=
  mkState (m_monitor s) (m_currentLibrary s) (m_tracksToStore s) (m_tracksToUpdate s) (m_trackPaths s) (m_existingArchives s) (m_missingFiles s) (m_missingHashes s) (m_existingCueTracks s) (m_missingCueTracks s) v (m_filesScanned s) (m_totalFiles s) (m_watchers s) (m_state s) (m_polls s) (m_log s).

Definition set_filesScanned (v : gset string) (s : ScanState) : ScanState :=
  mkState (m_monitor s) (m_currentLibrary s) (m_tracksToStore s) (m_tracksToUpdate s) (m_trackPaths s) (m_existingArchives s) (m_missingFiles s) (m_missingHashes s) (m_existingCueTracks s) (m_missingCueTracks s) (m_cueFilesScanned s) v (m_totalFiles s) (m_watchers s) (m_state s) (m_polls s) (m_log s).

Definition set_totalFiles (v : nat) (s : ScanState) : ScanState :=
  mkState (m_monitor s) (m_currentLibrary s) (m_tracksToStore s) (m_tracksToUpdate s) (m_trackPaths s) (m_existingArchives s) (m_missingFiles s) (m_missingHashes s) (m_existingCueTracks s) (m_missingCueTracks s) (m_cueFilesScanned s) (m_filesScanned s) v (m_watchers s) (m_state s) (m_polls s) (m_log s).

Definition set_watchers (v : gmap Z (list string)) (s : ScanState) : ScanState :=
  mkState (m_monitor s) (m_currentLibrary s) (m_tracksToStore s) (m_tracksToUpdate s) (m_trackPaths s) (m_existingArchives s) (m_missingFiles s) (m_missingHashes s) (m_existingCueTracks s) (m_missingCueTracks s) (m_cueFilesScanned s) (m_filesScanned s) (m_totalFiles s) v (m_state s) (m_polls s) (m_log s).

Definition set_state (v : RunState) (s : ScanState) : ScanState :=
  mkState (m_monitor s) (m_currentLibrary s) (m_tracksToStore s) (m_tracksToUpdate s) (m_trackPaths s) (m_existingArchives s) (m_missingFiles s) (m_missingHashes s) (m_existingCueTracks s) (m_missingCueTracks s) (m_cueFilesScanned s) (m_filesScanned s) (m_totalFiles s) (m_watchers s) v (m_polls s) (m_log s).

Definition set_polls (v : nat) (s : ScanState) : ScanState :=
  mkState (m_monitor s) (m_currentLibrary s) (m_tracksToStore s) (m_tracksToUpdate s) (m_trackPaths s) (m_existingArchives s) (m_missingFiles s) (m_missingHashes s) (m_existingCueTracks s) (m_missingCueTracks s) (m_cueFilesScanned s) (m_filesScanned s) (m_totalFiles s) (m_watchers s) (m_state s) v (m_log s).

Definition set_log (v : list Event) (s : ScanState) : ScanState :=
  mkState (m_monitor s) (m_currentLibrary s) (m_tracksToStore s) (m_tracksToUpdate s) (m_trackPaths s) (m_existingArchives s) (m_missingFiles s) (m_missingHashes s) (m_existingCueTracks s) (m_missingCueTracks s) (m_cueFilesScanned s) (m_filesScanned s) (m_totalFiles s) (m_watchers s) (m_state s) (m_polls s) v.

(** ** Collaborators *)

(** A tag reader chosen for a file: [init], [subsongCount], [readTrack]. *)
Record AudioReader := {
  rd_init : string -> bool;
  rd_subsongCount : string -> Z;
  rd_readTrack : string -> Track -> option Track;
}.

Record ArchiveEntry := { ae_name : string; ae_canOpen : bool; ae_size : Z }.

(** An archive reader: the entries its [readTracks] hands to the callback
    and whether that call succeeds. *)
Record ArchiveReader := {
  ar_init : string -> bool;
  ar_type : string;
  ar_entries : string -> list ArchiveEntry;
  ar_readTracks : string -> bool;
}.

Record AudioLoader := {
  isArchive : string -> bool;
  readerForFile : string -> option AudioReader;
  archiveReaderForFile : string -> option ArchiveReader;
  supportedFileExtensions : list string;
  (** [readTrackMetadata(track)]: the track as re-read, or failure *)
  readTrackMetadata : Track -> option Track;
}.

Inductive PlaylistDevice := PlaylistFile (path : string) | PlaylistBuffer (text : string).

Record PlaylistParser := {
  (** device, path of the playlist, skipNotFound *)
  readPlaylist : PlaylistDevice -> string -> bool -> list Track;
}.

Record PlaylistLoader := { parserForExtension : string -> option PlaylistParser }.

Record TrackDatabase := {
  idForTrack : Track -> Z;
  (** the caller's list as [storeTracks] leaves it (it takes the list by
      reference) *)
  storedTracks : list Track -> list Track;
}.

(** Modelled from the spec: the [Worker] base class ([utils/worker.h] is not
    among the sources). Stop and pause requests come from other threads, so
    the state a run sees is given per look: [observedState n] is what the
    n-th look finds; [mayRun] holds while it is [Running]. *)
Record Worker := { observedState : nat -> RunState }.

Record FySettings := {
  LibraryRestrictTypes : list string;
  LibraryExcludeTypes : option (list string);
}.

Definition BatchSize : nat := 250.

(** A run either goes on with a value or dies on an unchecked access
    ([unordered_map::at] on an absent key, [front] of an empty list). *)
Inductive result (A : Type) := Ok (a : A) | Fault.
Arguments Ok {A} a.
Arguments Fault {A}.

Definition bind {A B} (r : result A) (k : A -> result B) : result B :=
  match r with Ok a => k a | Fault => Fault end.

Notation "'do' x <- c ; k" := (bind c (fun x => k))
  (at level 10, x name, c at level 100, k at level 200).

(** [static_cast<uint64_t>] of a [qint64] and [static_cast<int>] of a
    [size_t] *)
Definition u64 (z : Z) : Z := z mod 2 ^ 64.
Definition toInt (n : nat) : Z := (Z.of_nat n + 2 ^ 31) mod 2 ^ 32 - 2 ^ 31.

(** [m.emplace(k, v)]: no effect when the key is taken. *)
Definition emplace {V} (k : string) (v : V) (m : gmap string V) : gmap string V :=
  match m !! k with Some _ => m | None => <[k := v]> m end.

(** [m[k].push_back(v)] *)
Definition pushBack {V} (k : string) (v : V) (m : gmap string (list V))
    : gmap string (list V) :=
  <[k := default [] (m !! k) ++ [v]]> m.

Definition logEvent (e : Event) (s : ScanState) : ScanState :=
  set_log (m_log s ++ [e]) s.

(** The tracks handed to the persisted store by the calls in a log. *)
Fixpoint dbWritten (log : list Event) : list Track :=
  match log with
  | [] => []
  | DbStoreTracks l :: r => l ++ dbWritten r
  | DbUpdateTracks l :: r => l ++ dbWritten r
  | _ :: r => dbWritten r
  end.

(** ** LibraryScannerPrivate *)
Section Scanner.
Context `{TrackOps}.
Context (fs : FileSystem) (loader : AudioLoader) (playlists : PlaylistLoader)
        (db : TrackDatabase) (worker : Worker) (settings : FySettings).
(** [Utils::extensionsToWildcards] and [Utils::File::getAllSubdirectories]
    are not part of these sources; [QDateTime::currentMSecsSinceEpoch] is
    read as one value per run. *)
Context (extensionsToWildcards : list string -> list string)
        (getAllSubdirectories : string -> list string)
        (currentMSecsSinceEpoch : Z).

(** [m_self->mayRun()]: one more look at the worker state. *)
Definition polled (s : ScanState) : ScanState := set_polls (S (m_polls s)) s.
Definition mayRun (s : ScanState) : bool :=
  RunState_eqb (observedState worker (m_polls s)) Running.

Definition cleanupScan (s : ScanState) : ScanState :=
  let s := logEvent DestroyThreadInstance s in
  let s := set_filesScanned ∅ s in
  let s := set_totalFiles 0%nat s in
  let s := set_tracksToStore [] s in
  let s := set_tracksToUpdate [] s in
  let s := set_trackPaths ∅ s in
  let s := set_existingArchives ∅ s in
  let s := set_missingFiles ∅ s in
  let s := set_missingHashes ∅ s in
  let s := set_existingCueTracks ∅ s in
  let s := set_missingCueTracks ∅ s in
  set_cueFilesScanned ∅ s.

Definition reportProgress (s : ScanState) : ScanState :=
  logEvent (ProgressChanged (toInt (size (m_filesScanned s)))
                            (toInt (m_totalFiles s))) s.

Definition fileScanned (file : string) (s : ScanState) : ScanState :=
  reportProgress (set_filesScanned ({[file]} ∪ m_filesScanned s) s).

(** [m.contains(key) && m.at(key).duration() == duration] *)
Definition lookupSameDuration (m : gmap string Track) (key : string)
    (duration : Z) : option Track :=
  match m !! key with
  | Some t => if Z.eqb (t_duration t) duration then Some t else None
  | None => None
  end.

Definition matchMissingTrack (s : ScanState) (track : Track) : Track :=
  let filename := filename track in
  let hash := t_hash track in
  match lookupSameDuration (m_missingFiles s) filename (t_duration track) with
  | Some t => t
  | None =>
      match lookupSameDuration (m_missingHashes s) hash (t_duration track) with
      | Some t => t
      | None => emptyTrack
      end
  end.

(** [m_trackDatabase.storeTracks(m_tracksToStore)] *)
Definition storeTracks (s : ScanState) : ScanState :=
  let s := logEvent (DbStoreTracks (m_tracksToStore s)) s in
  set_tracksToStore (storedTracks db (m_tracksToStore s)) s.

(** [m_trackDatabase.updateTracks(m_tracksToUpdate)] *)
Definition updateTracks (s : ScanState) : ScanState :=
  logEvent (DbUpdateTracks (m_tracksToUpdate s)) s.

Definition checkBatchFinished (s : ScanState) : ScanState :=
  if (Nat.leb BatchSize (List.length (m_tracksToStore s))
      || Nat.ltb BatchSize (List.length (m_tracksToUpdate s)))%bool
  then
    let s := if Nat.leb BatchSize (List.length (m_tracksToStore s))
             then storeTracks s else s in
    let s := if Nat.leb BatchSize (List.length (m_tracksToUpdate s))
             then updateTracks s else s in
    let s := logEvent (ScanUpdate (m_tracksToStore s) []) s in
    let s := set_tracksToStore [] s in
    set_tracksToUpdate [] s
  else s.

Definition lastModifiedOf (file : string) : Z :=
  match fs_lastModified fs file with Some ms => u64 ms | None => 0 end.

Definition readFileProperties (track : Track) : Track :=
  let file := t_filepath track in
  let track := if Z.eqb (t_addedTime track) 0
               then setAddedTime track (u64 currentMSecsSinceEpoch) else track in
  let track := if Z.eqb (t_modifiedTime track) 0
               then setModifiedTime track (lastModifiedOf file) else track in
  if Z.eqb (t_fileSize track) 0
  then setFileSize track (u64 (fs_size fs file)) else track.

(** [ArchivePath]: [unpack://%1|%2|file://%3!] filled with the archive
    type, the length of the archive's path and the path. *)
Definition ArchivePath (type filepath : string) : string :=
  ("unpack://" ++ type ++ "|" ++ pretty (String.length filepath)
     ++ "|file://" ++ filepath ++ "!")%string.

Definition readSubsongs (rd : AudioReader) (source : string)
    (mk : Z -> Track) : list Track :=
  flat_map (fun subIndex =>
              let subTrack := mk subIndex in
              match rd_readTrack rd (t_filepath subTrack) subTrack with
              | Some t => [generateHash t]
              | None => []
              end)
           (seqZ 0 (rd_subsongCount rd source)).

Definition readArchiveTracks (filepath : string) : list Track :=
  match archiveReaderForFile loader filepath with
  | None => []
  | Some archiveReader =>
      if negb (ar_init archiveReader filepath) then []
      else
        let archivePath := ArchivePath (ar_type archiveReader) filepath in
        let modifiedTime := lastModifiedOf filepath in
        let readEntry (e : ArchiveEntry) : list Track :=
          if negb (ae_canOpen e) then []
          else match readerForFile loader (ae_name e) with
               | None => []
               | Some fileReader =>
                   if negb (rd_init fileReader filepath) then []
                   else readSubsongs fileReader filepath
                          (fun subIndex =>
                             setModifiedTime
                               (setFileSize
                                  (newTrack (archivePath ++ ae_name e)%string subIndex)
                                  (u64 (ae_size e)))
                               modifiedTime)
               end in
        if ar_readTracks archiveReader filepath
        then flat_map readEntry (ar_entries archiveReader filepath)
        else []
  end.

Definition readTracks (filepath : string) : list Track :=
  if isArchive loader filepath then readArchiveTracks filepath
  else match readerForFile loader filepath with
       | None => []
       | Some tagReader =>
           if negb (fs_canOpen fs filepath) then []
           else if negb (rd_init tagReader filepath) then []
           else readSubsongs tagReader filepath
                  (fun subIndex =>
                     setFileSize (newTrack filepath subIndex)
                                 (u64 (fs_size fs filepath)))
       end.

Definition readPlaylistTracks (path : string) (addMissing : bool) : list Track :=
  if String.eqb path "" then []
  else if negb (fs_canOpen fs path) then []
  else match parserForExtension playlists (Path.suffix path) with
       | Some parser => readPlaylist parser (PlaylistFile path) path (negb addMissing)
       | None => []
       end.

(** [cues.front()] is taken of a tag the callers have found present; a
    [Track] keeps no tag with an empty value list. *)
Definition readEmbeddedPlaylistTracks (track : Track) : list Track :=
  let cues := extraTag track "CUESHEET" in
  match parserForExtension playlists "cue" with
  | Some parser =>
      map generateHash
          (readPlaylist parser (PlaylistBuffer (hd ""%string cues))
                        (t_filepath track) false)
  | None => []
  end.

Definition setTrackPropsAt (s : ScanState) (track : Track) (file : string) : Track :=
  let track := readFileProperties track in
  let track := setFilePath track file in
  let track := if Z.leb 0 (lib_id (m_currentLibrary s))
               then setLibraryId track (lib_id (m_currentLibrary s)) else track in
  let track := generateHash track in
  setIsEnabled track true.

Definition setTrackProps (s : ScanState) (track : Track) : Track :=
  setTrackPropsAt s track (t_filepath track).

(** [existingTrackPaths]: the given tracks by [uniqueFilepath], the first
    of each key. *)
Definition byUniqueFilepath (tracks : list Track) : gmap string Track :=
  fold_left (fun m t => emplace (uniqueFilepath t) t m) tracks ∅.

(** A cue track takes the id of the known track with its key, if any. *)
Definition adoptId (existingTrackPaths : gmap string Track) (track : Track) : Track :=
  match existingTrackPaths !! uniqueFilepath track with
  | Some t => setId track (t_id t)
  | None => track
  end.

Definition updateExistingCueTracks (tracks : list Track) (cue : string)
    (s : ScanState) : ScanState :=
  let existingTrackPaths := byUniqueFilepath tracks in
  let cueTracks := readPlaylistTracks cue false in
  fold_left (fun s cueTrack =>
               let track := adoptId existingTrackPaths cueTrack in
               let track := setTrackProps s track in
               let s := set_tracksToUpdate (m_tracksToUpdate s ++ [track]) s in
               set_cueFilesScanned ({[t_filepath track]} ∪ m_cueFilesScanned s) s)
            cueTracks (logEvent (ReadPlaylistFile cue) s).

Definition addNewCueTracks (cue filename : string) (s : ScanState)
    : result ScanState :=
  match m_missingCueTracks s !! filename with
  | Some _ =>
      match m_missingCueTracks s !! cue with
      | None => Fault
      | Some refoundCueTracks =>
          Ok (fold_left (fun s track =>
                           let track := setCuePath track cue in
                           set_tracksToUpdate (m_tracksToUpdate s ++ [track]) s)
                        refoundCueTracks s)
      end
  | None =>
      let cueTracks := readPlaylistTracks cue false in
      Ok (fold_left (fun s cueTrack =>
                       let track := setTrackProps s cueTrack in
                       let s := set_tracksToStore (m_tracksToStore s ++ [track]) s in
                       set_cueFilesScanned ({[t_filepath track]} ∪ m_cueFilesScanned s) s)
                    cueTracks (logEvent (ReadPlaylistFile cue) s))
  end.

Definition readCue (cue : string) (onlyModified : bool) (s : ScanState)
    : result ScanState :=
  let lastModified := lastModifiedOf cue in
  match m_existingCueTracks s !! cue with
  | Some tracks =>
      match tracks with
      | [] => Fault
      | front :: _ =>
          if (Z.ltb (t_modifiedTime front) lastModified || negb onlyModified)%bool
          then Ok (updateExistingCueTracks tracks cue s)
          else Ok (fold_left (fun s track =>
                                set_cueFilesScanned
                                  ({[t_filepath track]} ∪ m_cueFilesScanned s) s)
                             tracks s)
      end
  | None => addNewCueTracks cue (Path.fileName cue) s
  end.

Definition updateExistingTrack (track : Track) (file : string) (s : ScanState)
    : ScanState :=
  let track := setTrackPropsAt s track file in
  let s := set_missingFiles (delete (filename track) (m_missingFiles s)) s in
  let '(track, s) :=
    if Z.ltb (t_id track) 0 then
      let id := idForTrack db track in
      if Z.ltb id 0 then (track, logEvent (Warning file) s)
      else (setId track id, s)
    else (track, s) in
  if hasExtraTag track "CUESHEET" then
    let existingTrackPaths :=
      match m_existingCueTracks s !! t_filepath track with
      | Some tracks => byUniqueFilepath tracks
      | None => ∅
      end in
    let cueTracks := readEmbeddedPlaylistTracks track in
    fold_left (fun s cueTrack =>
                 let cueTrack := adoptId existingTrackPaths cueTrack in
                 let cueTrack := setTrackPropsAt s cueTrack file in
                 let s := set_tracksToUpdate (m_tracksToUpdate s ++ [cueTrack]) s in
                 set_missingHashes (delete (t_hash cueTrack) (m_missingHashes s)) s)
              cueTracks (logEvent (ReadEmbeddedPlaylist (t_filepath track)) s)
  else
    let s := set_tracksToUpdate (m_tracksToUpdate s ++ [track]) s in
    set_missingHashes (delete (t_hash track) (m_missingHashes s)) s.

(** The body of the loop of [readNewTrack], for one track read from [file]. *)
Definition readNewTrackStep (file : string) (s : ScanState) (track : Track)
    : ScanState :=
  let refoundTrack := matchMissingTrack s track in
  if (isInLibrary refoundTrack || isInDatabase refoundTrack)%bool then
    let s := set_missingHashes (delete (t_hash refoundTrack) (m_missingHashes s)) s in
    let s := set_missingFiles (delete (filename refoundTrack) (m_missingFiles s)) s in
    let refoundTrack := setTrackPropsAt s refoundTrack file in
    set_tracksToUpdate (m_tracksToUpdate s ++ [refoundTrack]) s
  else
    let track := setTrackProps s track in
    let track := setAddedTime track (u64 currentMSecsSinceEpoch) in
    if hasExtraTag track "CUESHEET" then
      let cueTracks := readEmbeddedPlaylistTracks track in
      fold_left (fun s cueTrack =>
                   let cueTrack := setTrackPropsAt s cueTrack file in
                   set_tracksToStore (m_tracksToStore s ++ [cueTrack]) s)
                cueTracks (logEvent (ReadEmbeddedPlaylist (t_filepath track)) s)
    else set_tracksToStore (m_tracksToStore s ++ [track]) s.



Definition readNewTrack (file : string) (s : ScanState) : ScanState :=
  let tracks := readTracks file in
  fold_left (readNewTrackStep file) tracks (logEvent (ReadTracks file) s).

(** The test that sends a known file to be read again. *)
Definition needsRead (s : ScanState) (libraryTrack : Track)
    (lastModified : Z) (onlyModified : bool) : bool :=
  (negb (t_isEnabled libraryTrack)
   || negb (Z.eqb (t_libraryId libraryTrack) (lib_id (m_currentLibrary s)))
   || Z.ltb (t_modifiedTime libraryTrack) lastModified
   || negb onlyModified)%bool.

Definition readFile (file : string) (onlyModified : bool) (s : ScanState)
    : result ScanState :=
  let run := mayRun s in
  let s := polled s in
  if negb run then Ok s
  else if bool_decide (file ∈ m_cueFilesScanned s) then Ok s
  else
    let lastModifiedTime := fs_lastModified fs file in
    let lastModified := lastModifiedOf file in
    match m_trackPaths s !! file with
    | Some tracks =>
        match tracks with
        | [] => Fault
        | libraryTrack :: _ =>
            if needsRead s libraryTrack lastModified onlyModified then
              let s := logEvent (ReadTrackMetadata file) s in
              match readTrackMetadata loader libraryTrack with
              | None => Ok s
              | Some changedTrack =>
                  let changedTrack :=
                    match lastModifiedTime with
                    | Some _ => setModifiedTime changedTrack lastModified
                    | None => changedTrack
                    end in
                  Ok (updateExistingTrack changedTrack file s)
              end
            else Ok s
        end
    | None =>
        match m_existingArchives s !! file with
        | Some tracks =>
            match tracks with
            | [] => Fault
            | libraryTrack :: _ =>
                if needsRead s libraryTrack lastModified onlyModified then
                  let tracks := readArchiveTracks file in
                  Ok (fold_left (fun s track =>
                                   updateExistingTrack track (t_filepath track) s)
                                tracks (logEvent (ReadTracks file) s))
                else Ok s
            end
        | None => Ok (readNewTrack file s)
        end
    end.

Definition markMissing (track : Track) (s : ScanState) : ScanState :=
  let s := set_missingFiles (emplace (filename track) track (m_missingFiles s)) s in
  set_missingHashes (emplace (t_hash track) track (m_missingHashes s)) s.

(** The file a track was read from, or its archive, is not there. *)
Definition sourceGone (track : Track) : bool :=
  if isInArchive track then negb (fs_exists fs (archivePath track))
  else negb (fs_exists fs (t_filepath track)).

(** The key a track's cue sheet is indexed under: the track's own path for
    an embedded sheet, the path of the sheet otherwise. *)
Definition cuePathKey (track : Track) : string :=
  if String.eqb (t_cuePath track) "Embedded"
  then t_filepath track else t_cuePath track.

Definition populateExistingTrack (includeMissing : bool) (s : ScanState)
    (track : Track) : ScanState :=
  let s := set_trackPaths (pushBack (t_filepath track) track (m_trackPaths s)) s in
  let s := if isInArchive track
           then set_existingArchives
                  (pushBack (archivePath track) track (m_existingArchives s)) s
           else s in
  if includeMissing then
    let s :=
      if hasCue track then
        let cuePath := cuePathKey track in
        let s := set_existingCueTracks
                   (pushBack cuePath track (m_existingCueTracks s)) s in
        if negb (fs_exists fs cuePath)
        then set_missingCueTracks (pushBack cuePath track (m_missingCueTracks s)) s
        else s
      else s in
    if negb (isInArchive track) then
      if negb (fs_exists fs (t_filepath track)) then markMissing track s else s
    else
      if negb (fs_exists fs (archivePath track)) then markMissing track s else s
  else s.

Definition populateExistingTracks (tracks : list Track) (includeMissing : bool)
    (s : ScanState) : ScanState :=
  fold_left (populateExistingTrack includeMissing) tracks s.

(** The file loop of [getAndSaveAllTracks]; [false] when [mayRun] failed. *)
Fixpoint scanFilesLoop (files : list string) (onlyModified : bool)
    (s : ScanState) : result (bool * ScanState) :=
  match files with
  | [] => Ok (true, s)
  | file :: rest =>
      let run := mayRun s in
      let s := polled s in
      if negb run then Ok (false, s)
      else
        let filepath := fs_absoluteFilePath fs file in
        do s <- (if String.eqb (Path.suffix file) "cue"
                 then readCue filepath onlyModified s
                 else readFile filepath onlyModified s);
        let s := fileScanned filepath s in
        let s := checkBatchFinished s in
        scanFilesLoop rest onlyModified s
  end.

(** What the closing loop over [m_missingFiles] does to one entry. *)
Definition stillListed (track : Track) : bool :=
  (isInLibrary track || t_isEnabled track)%bool.
Definition demote (track : Track) : Track :=
  setIsEnabled (setLibraryId track (-1)) false.

(** The entries are visited in the map's order, which [unordered_map]
    leaves open; the map's values are changed in place. *)
Definition demoteMissing (s : ScanState) : ScanState :=
  let demoted := map demote
                   (List.filter stillListed (map snd (map_to_list (m_missingFiles s)))) in
  let s := set_missingFiles
             ((fun t => if stillListed t then demote t else t) <$> m_missingFiles s) s in
  set_tracksToUpdate (m_tracksToUpdate s ++ demoted) s.

Definition isEmpty {A} (l : list A) : bool :=
  match l with [] => true | _ => false end.

(** The parts of [getAndSaveAllTracks]: the files it enumerates, the state
    it enters the file loop with, and what it does after the loop. *)
Definition libraryFiles (path : string) : list string :=
  let restrictExtensions := LibraryRestrictTypes settings in
  let excludeExtensions := default ["cue"%string] (LibraryExcludeTypes settings) in
  let restrictExtensions :=
    if isEmpty restrictExtensions
    then supportedFileExtensions loader ++ ["cue"%string]
    else restrictExtensions in
  getFilesIn fs extensionsToWildcards path restrictExtensions excludeExtensions.

Definition enterFileLoop (files : list string) (tracks : list Track)
    (s : ScanState) : ScanState :=
  let s := populateExistingTracks tracks true s in
  let s := set_totalFiles (List.length files) s in
  reportProgress s.

Definition saveAllTracks (s : ScanState) : ScanState :=
  let s := demoteMissing s in
  let s := storeTracks s in
  let s := updateTracks s in
  if (negb (isEmpty (m_tracksToStore s))
      || negb (isEmpty (m_tracksToUpdate s)))%bool
  then logEvent (ScanUpdate (m_tracksToStore s) (m_tracksToUpdate s)) s
  else s.

Definition getAndSaveAllTracks (path : string) (tracks : list Track)
    (onlyModified : bool) (s : ScanState) : result (bool * ScanState) :=
  let files := libraryFiles path in
  let s := enterFileLoop files tracks s in
  do r <- scanFilesLoop files onlyModified s;
  let '(finished, s) := r in
  if negb finished then Ok (false, s)
  else Ok (true, saveAllTracks s).


(** No track of the missing-file index is in a library or enabled. *)
Definition noneToDemote (s : ScanState) : bool :=
  forallb (fun t => negb (stillListed t)) (map snd (map_to_list (m_missingFiles s))).

Definition changeLibraryStatus (status : Status) (s : ScanState) : ScanState :=
  let s := set_currentLibrary (setStatus (m_currentLibrary s) status) s in
  logEvent (StatusChanged (m_currentLibrary s)) s.

Definition addWatcher (library : LibraryInfo) (s : ScanState) : ScanState :=
  let dirs := getAllSubdirectories (lib_path library) ++ [lib_path library] in
  set_watchers (<[lib_id library := default [] (m_watchers s !! lib_id library) ++ dirs]>
                  (m_watchers s)) s.

(** ** LibraryScanner *)

Definition finishRun (s : ScanState) : ScanState :=
  let paused := RunState_eqb (observedState worker (m_polls s)) Paused in
  let s := polled s in
  if paused then changeLibraryStatus StatusPending s
  else
    let s := changeLibraryStatus
               (if m_monitor s then StatusMonitoring else StatusIdle) s in
    let s := set_state Idle s in
    logEvent Finished s.

(** The first steps of [scanLibrary] and [scanLibraryDirectory]. *)
Definition startScan (library : LibraryInfo) (s : ScanState) : ScanState :=
  let s := set_state Running s in
  let s := set_currentLibrary library s in
  changeLibraryStatus StatusScanning s.

Definition watchIfMonitoring (library : LibraryInfo) (s : ScanState) : ScanState :=
  if (m_monitor s
      && negb (bool_decide (is_Some (m_watchers s !! lib_id library))))%bool
  then addWatcher library s else s.

Definition scanLibrary (library : LibraryInfo) (tracks : list Track)
    (onlyModified : bool) (s : ScanState) : result ScanState :=
  let s := startScan library s in
  do s <- (if (Z.leb 0 (lib_id (m_currentLibrary s))
               && fs_exists fs (lib_path (m_currentLibrary s)))%bool
           then
             let s := watchIfMonitoring library s in
             do r <- getAndSaveAllTracks (lib_path library) tracks onlyModified s;
             Ok (cleanupScan (snd r))
           else Ok s);
  Ok (finishRun s).

Definition scanLibraryDirectory (library : LibraryInfo) (dir : string)
    (tracks : list Track) (s : ScanState) : result ScanState :=
  let s := startScan library s in
  do r <- getAndSaveAllTracks dir tracks true s;
  Ok (finishRun (cleanupScan (snd r))).



End Scanner.







(** A scanner that has not run yet. *)
Definition initialState : ScanState :=
  mkState false (mkLibrary (-1) "" "" StatusIdle) [] [] ∅ ∅ ∅ ∅ ∅ ∅ ∅ ∅ 0%nat ∅ Idle 0%nat [].

(** ** The other entry points of LibraryScanner *)

(** The store call and the signals of [scanTracks], [scanFiles] and
    [scanPlaylist] that [Event] has no constructor for, in the order they
    happen. *)
Inductive Signal :=
| DbUpdateTrackStats (tracks : list Track)
| ScannedTracks (tracks : list Track)
| PlaylistLoaded (tracks : list Track).

Section EntryPoints.
Context `{TrackOps}.
Context (fs : FileSystem) (loader : AudioLoader) (playlists : PlaylistLoader)
        (db : TrackDatabase) (worker : Worker).
(** The settings [ExternalRestrictTypes] and [ExternalExcludeTypes] and the
    list [Playlist::supportedPlaylistExtensions] are read by [scanFiles]. *)
Context (ExternalRestrictTypes ExternalExcludeTypes : list string)
        (supportedPlaylistExtensions : list string).
Context (extensionsToWildcards : list string -> list string)
        (getAllSubdirectories : string -> list string)
        (currentMSecsSinceEpoch : Z).

Definition finishScan (s : ScanState) : ScanState :=
  let paused := RunState_eqb (observedState worker (m_polls s)) Paused in
  let s := polled s in
  if negb paused then
    let s := set_state Idle s in
    let s := reportProgress s in
    let s := cleanupScan s in
    logEvent Finished s
  else s.

(** The inner loop of [readPlaylist]: the first known track with the key of
    the playlist track. *)
Definition findByUniqueFilepath (existingTracks : list Track) (playlistTrack : Track)
    : option Track :=
  List.find (fun track => String.eqb (uniqueFilepath track) (uniqueFilepath playlistTrack))
            existingTracks.

(** What [readPlaylist] makes of one track of the playlist. *)
Definition resolvePlaylistTrack (s : ScanState) (playlistTrack : Track) : list Track :=
  let trackKey := t_filepath playlistTrack in
  match m_trackPaths s !! trackKey with
  | Some existingTracks =>
      match findByUniqueFilepath existingTracks playlistTrack with
      | Some track => [track]
      | None => []
      end
  | None => [generateHash playlistTrack]
  end.

Definition readPlaylistOf (s : ScanState) (filepath : string) : list Track :=
  flat_map (resolvePlaylistTrack s) (readPlaylistTracks fs playlists filepath true).








Definition scanPlaylist (libraryTracks : list Track) (urls : list QUrl) (s : ScanState)
    : ScanState * list Signal :=
  let s := set_state Running s in
  let s := populateExistingTracks fs libraryTracks false s in
  let s := reportProgress s in
  let run := mayRun worker s in
  let s := polled s in
  if negb run then (finishScan s, [])
  else
    let '(s, tracksScanned) :=
      fold_left (fun acc url =>
                   let '(s, tracksScanned) := acc in
                   let playlistTracks := readPlaylistOf s (toLocalFile url) in
                   let s := logEvent (ReadPlaylistFile (toLocalFile url)) s in
                   let s := fold_left (fun s track =>
                                         set_filesScanned
                                           ({[t_filepath track]} ∪ m_filesScanned s) s)
                                      playlistTracks s in
                   (s, tracksScanned ++ playlistTracks))
                urls (s, []) in
    if negb (isEmpty tracksScanned) then
      let s := logEvent (DbStoreTracks tracksScanned) s in
      (finishScan s, [PlaylistLoaded (storedTracks db tracksScanned)])
    else (finishScan s, []).

Definition setMonitorLibraries (enabled : bool) (s : ScanState) : ScanState :=
  set_monitor enabled s.

(** What [setupWatchers] does for one library of the map. *)
Definition setupWatcher (enabled : bool) (s : ScanState) (library : LibraryInfo)
    : ScanState :=
  if negb enabled then
    match lib_status library with
    | StatusMonitoring => logEvent (StatusChanged (setStatus library StatusIdle)) s
    | _ => s
    end
  else if negb (bool_decide (is_Some (m_watchers s !! lib_id library))) then
    let s := addWatcher getAllSubdirectories library s in
    logEvent (StatusChanged (setStatus library StatusMonitoring)) s
  else s.

(** [libraries] are the values of the library map, in its order. *)
Definition setupWatchers (libraries : list LibraryInfo) (enabled : bool)
    (s : ScanState) : ScanState :=
  let s := fold_left (setupWatcher enabled) libraries s in
  if negb enabled then set_watchers ∅ s else s.

End EntryPoints.

(** ** Predicates on the scanner's state *)

(** Neither queue holds what would trip [checkBatchFinished]. *)
Definition queuesBounded (s : ScanState) : Prop :=
  (List.length (m_tracksToStore s) < BatchSize)%nat
  /\ (List.length (m_tracksToUpdate s) <= BatchSize)%nat.

(** The fields a scan builds before its file loop and that reading a file
    or a cue sheet leaves alone. *)
Definition readFrame (s : ScanState) :=
  (m_trackPaths s, m_existingArchives s, m_existingCueTracks s, m_missingCueTracks s,
   m_currentLibrary s, m_totalFiles s, m_watchers s, m_monitor s, m_state s,
   m_filesScanned s).

(** No index holds an empty list, so [front] is never taken of one. *)
Definition listsNonEmpty (s : ScanState) : Prop :=
  (forall k, m_trackPaths s !! k <> Some [])
  /\ (forall k, m_existingArchives s !! k <> Some [])
  /\ (forall k, m_existingCueTracks s !! k <> Some []).

(** The calls to the persisted store among the events of a log. *)
Definition isStoreCall (e : Event) : bool :=
  match e with
  | DbStoreTracks _ | DbUpdateTracks _ => true
  | _ => false
  end.

Definition storeCalls (log : list Event) : list Event := List.filter isStoreCall log.

(** The per-run fields, which [cleanupScan] empties. *)
Definition runFields (s : ScanState) :=
  (m_tracksToStore s, m_tracksToUpdate s, m_trackPaths s, m_existingArchives s,
   m_missingFiles s, m_missingHashes s, m_existingCueTracks s, m_missingCueTracks s,
   m_cueFilesScanned s, m_filesScanned s, m_totalFiles s).

(** ** Concrete collaborators

    Small tables standing for a file system, a tag reader and a store, to
    run the scanner on. *)
Module Fixtures.

(** File name from the path, hash from the tags. *)
Definition plainTrackOps : TrackOps := {|
  filename := fun t => Path.fileName (t_filepath t);
  uniqueFilepath := fun t => (t_filepath t ++ pretty (t_subsong t))%string;
  isInArchive := fun _ => false;
  archivePath := fun _ => ""%string;
  hashOf := fun t => t_tags t |}.

Definition lookupFile {A} (files : list (string * A)) (p : string) : option A :=
  snd <$> List.find (fun e => String.eqb (fst e) p) files.

(** Directories, and files with their modification time and size. *)
Definition tableFs (dirs : list string) (files : list (string * (Z * Z)))
    : FileSystem := {|
  fs_isDir := fun p => contains dirs p;
  fs_exists := fun p =>
    (contains dirs p || bool_decide (is_Some (lookupFile files p)))%bool;
  fs_absoluteFilePath := fun p => p;
  fs_lastModified := fun p => fst <$> lookupFile files p;
  fs_size := fun p => default 0 (snd <$> lookupFile files p);
  fs_canOpen := fun p => bool_decide (is_Some (lookupFile files p));
  fs_dirIterator := fun dir filters =>
    map (fun e => (fst e, snd (snd e)))
        (List.filter (fun e => (String.prefix dir (fst e)
                                && contains filters (Path.suffix (fst e)))%bool)
                     files) |}.

Definition withTags (t : Track) (duration : Z) (tags : string)
    (extra : list (string * list string)) : Track :=
  mkTrack (t_id t) (t_libraryId t) (t_filepath t) (t_subsong t) (t_cuePath t)
    (t_hash t) duration (t_fileSize t) (t_addedTime t) (t_modifiedTime t)
    (t_isEnabled t) extra tags.

(** A reader that finds, per file, a duration and the tags. *)
Definition tableReader (tags : list (string * (Z * string))) : AudioReader := {|
  rd_init := fun _ => true;
  rd_subsongCount := fun _ => 1;
  rd_readTrack := fun p t =>
    match lookupFile tags p with
    | Some (d, g) => Some (withTags t d g (t_extraTags t))
    | None => None
    end |}.

Definition tableLoader (tags : list (string * (Z * string))) : AudioLoader := {|
  isArchive := fun _ => false;
  readerForFile := fun p =>
    if bool_decide (is_Some (lookupFile tags p))
    then Some (tableReader tags) else None;
  archiveReaderForFile := fun _ => None;
  supportedFileExtensions := ["flac"%string];
  readTrackMetadata := fun t => rd_readTrack (tableReader tags) (t_filepath t) t |}.

Definition noPlaylists : PlaylistLoader := {| parserForExtension := fun _ => None |}.

(** A cue parser that finds no track in anything. *)
Definition emptyCueParser : PlaylistLoader :=
  {| parserForExtension := fun _ => Some {| readPlaylist := fun _ _ _ => [] |} |}.

(** A parser that finds the given tracks in every playlist and sheet. *)
Definition listingParser (tracks : list Track) : PlaylistLoader :=
  {| parserForExtension := fun _ => Some {| readPlaylist := fun _ _ _ => tracks |} |}.

(** A store that knows no track and leaves the caller's list alone. *)
Definition plainDb : TrackDatabase :=
  {| idForTrack := fun _ => -1; storedTracks := fun l => l |}.

Definition alwaysRunning : Worker := {| observedState := fun _ => Running |}.

Definition defaults : FySettings :=
  {| LibraryRestrictTypes := []; LibraryExcludeTypes := None |}.

Definition library1 : LibraryInfo := mkLibrary 1 "/m" "music" StatusIdle.

(** A persisted track of [library1]. *)
Definition known (id : Z) (path hash : string) (duration modified : Z) : Track :=
  mkTrack id 1 path 0 "" hash duration 10 1 modified true [] hash.

(** One directory with a media file and a playlist. *)
Definition musicFs : FileSystem :=
  tableFs ["/m"%string]
    [("/m/song.flac"%string, (100, 10)); ("/m/list.m3u"%string, (100, 10))].

(** Extensions standing for their own wildcards. *)
Definition sameList (l : list string) : list string := l.

(** The scanner of [library1] as [scanLibrary] has it when it calls
    [getAndSaveAllTracks]. *)
Definition scanning : ScanState :=
  set_log [StatusChanged (mkLibrary 1 "/m" "music" StatusScanning)]
    (set_currentLibrary (mkLibrary 1 "/m" "music" StatusScanning)
       (set_state Running initialState)).

(** A full insert queue next to an update queue of one track. *)
Definition queuedInsert : Track := newTrack "/m/new.flac" 0.
Definition queuedUpdate : Track := known 7 "/m/old.flac" "H" 5 100.
Definition fullInsertQueue : ScanState :=
  set_tracksToUpdate [queuedUpdate]
    (set_tracksToStore (repeat queuedInsert 250) scanning).

(** Two media files in the library directory, no track known yet. *)
Definition twoFilesFs : FileSystem :=
  tableFs ["/m"%string]
    [("/m/a.flac"%string, (100, 10)); ("/m/b.flac"%string, (100, 10))].
Definition twoFilesLoader : AudioLoader :=
  tableLoader [("/m/a.flac"%string, (5, "A"%string));
               ("/m/b.flac"%string, (6, "B"%string))].



(** A library with one track whose file is as it was. *)
Definition keptTrack : Track := known 3 "/m/a.flac" "A" 5 100.
Definition keptIndexed : ScanState :=
  populateExistingTracks (H := plainTrackOps) twoFilesFs [keptTrack] true scanning.
Definition oneFileLoader : AudioLoader :=
  tableLoader [("/m/a.flac"%string, (5, "A"%string))].


(** Tracks the store has no id for, without and with an embedded cue
    sheet. *)
Definition unsavedTrack : Track :=
  mkTrack (-1) 1 "/m/a.flac" 0 "" "A" 5 10 1 100 true [] "A".
Definition unsavedCueTrack : Track :=
  mkTrack (-1) 1 "/m/a.flac" 0 "" "A" 5 10 1 100 true
    [("CUESHEET"%string, ["FILE a.flac WAVE"%string])] "A".

(** A track of a cue sheet recorded under a path that does not exist. *)
Definition cueTrack : Track :=
  mkTrack 4 1 "/m/a.flac" 0 "a.cue" "C" 5 10 1 100 true [] "C".
Definition cueFs : FileSystem :=
  tableFs ["/m"%string]
    [("/m/a.cue"%string, (100, 10)); ("/m/a.flac"%string, (100, 10))].

(** A library that is in no library list: its id is negative. *)
Definition unlistedLibrary : LibraryInfo := mkLibrary (-1) "/m" "music" StatusIdle.


End Fixtures.

(** * Properties *)

(** ** The order on paths *)

Lemma ascii_compare_eq (a b : ascii) : Ascii.compare a b = Eq -> a = b.
Proof.
  unfold Ascii.compare. intros Hc. apply N.compare_eq in Hc.
  rewrite <- (ascii_N_embedding a), <- (ascii_N_embedding b). now rewrite Hc.
Qed.

Lemma string_compare_not_gt_trans (a b c : string) :
  String.compare a b <> Gt -> String.compare b c <> Gt -> String.compare a c <> Gt.
Proof.
  revert b c. induction a as [|x a IH]; intros [|y b] [|z c]; simpl; try congruence.
  unfold Ascii.compare.
  destruct (N.compare_spec (N_of_ascii x) (N_of_ascii y)) as [Hxy|Hxy|Hxy];
    destruct (N.compare_spec (N_of_ascii y) (N_of_ascii z)) as [Hyz|Hyz|Hyz];
    destruct (N.compare_spec (N_of_ascii x) (N_of_ascii z)) as [Hxz|Hxz|Hxz];
    try congruence; try lia.
  apply IH.
Qed.

Lemma less_false_compare (a b : string) :
  Path.less b a = false <-> String.compare a b <> Gt.
Proof.
  unfold Path.less, String.ltb. rewrite (String.compare_antisym a b).
  destruct (String.compare b a); simpl; split; congruence.
Qed.

Lemma less_asym (a b : string) : Path.less a b = true -> Path.less b a = false.
Proof.
  unfold Path.less, String.ltb. rewrite (String.compare_antisym a b).
  destruct (String.compare b a); simpl; congruence.
Qed.

#[local] Instance path_le_trans : Transitive Path.le.
Proof.
  intros a b c Hab Hbc. unfold Path.le in *.
  rewrite less_false_compare in *. eauto using string_compare_not_gt_trans.
Qed.

#[local] Instance path_le_antisym : AntiSymm (=) Path.le.
Proof.
  intros a b Hab Hba. unfold Path.le, Path.less, String.ltb in *.
  apply String.compare_eq_iff. rewrite (String.compare_antisym a b) in *.
  destruct (String.compare b a); simpl in *; congruence.
Qed.

(** ** Insertion sort is a stable sort *)
Section StableSortFacts.
Context {A : Type} (lt : A -> A -> bool).

Lemma stable_insert_perm x l : Permutation (x :: l) (stable_insert lt x l).
Proof.
  induction l as [|y r IH]; simpl; [reflexivity|].
  destruct (lt y x); [|reflexivity].
  rewrite perm_swap. now apply perm_skip.
Qed.

Lemma stable_sort_perm l : Permutation l (stable_sort lt l).
Proof.
  induction l as [|x r IH]; simpl; [constructor|].
  rewrite <- stable_insert_perm. now apply perm_skip.
Qed.

(** The order sorted into: [b] does not go before [a]. *)
Let notAfter (a b : A) : Prop := lt b a = false.

Hypothesis lt_asym : forall a b, lt a b = true -> lt b a = false.
Hypothesis notAfter_trans : forall a b c, notAfter a b -> notAfter b c -> notAfter a c.

Lemma stable_insert_sorted x l :
  StronglySorted notAfter l -> StronglySorted notAfter (stable_insert lt x l).
Proof.
  induction 1 as [|y r Hr IH Hy]; simpl.
  - repeat constructor.
  - destruct (lt y x) eqn:Hyx.
    + constructor; [exact IH|].
      rewrite <- stable_insert_perm. constructor; [|exact Hy].
      apply lt_asym, Hyx.
    + constructor; [now constructor|].
      constructor; [exact Hyx|].
      eapply List.Forall_impl; [|exact Hy]. intros z Hz. simpl in Hz.
      eapply notAfter_trans; [exact Hyx|exact Hz].
Qed.

Lemma stable_sort_sorted l : StronglySorted notAfter (stable_sort lt l).
Proof.
  induction l as [|x r IH]; simpl; [constructor|].
  now apply stable_insert_sorted.
Qed.
End StableSortFacts.

Lemma StronglySorted_keeps_filter {A} (R : A -> A -> Prop) (p : A -> bool) l :
  StronglySorted R l -> StronglySorted R (List.filter p l).
Proof.
  induction 1 as [|x r Hr IH Hx]; simpl; [constructor|].
  destruct (p x); [|exact IH].
  constructor; [exact IH|].
  apply List.Forall_forall. intros y Hy. apply List.filter_In in Hy as [Hy _].
  revert y Hy. now apply List.Forall_forall.
Qed.

Lemma sortByPath_sorted files : StronglySorted Path.le (sortByPath files).
Proof.
  apply (stable_sort_sorted Path.less).
  - exact less_asym.
  - intros a b c. apply path_le_trans.
Qed.

Lemma sortByPath_perm_invariant files files' :
  Permutation files files' -> sortByPath files = sortByPath files'.
Proof.
  intros Hp. apply (StronglySorted_unique Path.le); try apply sortByPath_sorted.
  unfold sortByPath.
  rewrite <- (stable_sort_perm Path.less files), <- (stable_sort_perm Path.less files').
  exact Hp.
Qed.

(** ** Cue sheets first *)

Lemma cueFirst_spec a b : cueFirst a b = (Path.isCue a && negb (Path.isCue b))%bool.
Proof. unfold cueFirst. now destruct (Path.isCue a), (Path.isCue b). Qed.

Lemma stable_insert_cue x l :
  Path.isCue x = true -> stable_insert cueFirst x l = x :: l.
Proof.
  intros Hx. destruct l as [|y r]; simpl; [reflexivity|].
  rewrite cueFirst_spec, Hx. simpl. now rewrite andb_false_r.
Qed.

Lemma stable_insert_notCue x cues others :
  Path.isCue x = false ->
  Forall (fun f => Path.isCue f = true) cues ->
  Forall (fun f => Path.isCue f = false) others ->
  stable_insert cueFirst x (cues ++ others) = cues ++ x :: others.
Proof.
  intros Hx Hc Ho. induction Hc as [|y r Hy Hr IH]; simpl.
  - destruct Ho as [|z o Hz Ho]; simpl; [reflexivity|].
    now rewrite cueFirst_spec, Hz.
  - rewrite cueFirst_spec, Hy, Hx. simpl. now rewrite IH.
Qed.

Lemma stable_sort_cueFirst l :
  stable_sort cueFirst l = List.filter Path.isCue l ++ List.filter notCue l.
Proof.
  induction l as [|x r IH]; simpl; [reflexivity|].
  rewrite IH. unfold notCue at 2. destruct (Path.isCue x) eqn:Hx; simpl.
  - now apply stable_insert_cue.
  - apply stable_insert_notCue; [exact Hx| |];
      apply List.Forall_forall; intros y Hy; apply List.filter_In in Hy as [_ Hy];
      [exact Hy|]. unfold notCue in Hy. now destruct (Path.isCue y).
Qed.

(** C6. [sortFiles] orders its input by full path and then moves the cue
    sheets (suffix [cue], whatever the case of its letters) in front of all
    other entries, keeping the path order among the cue sheets and among the
    others; the result is a rearrangement of the input that depends on the
    entries only, not on the order they were found in. *)
Theorem sortFiles_sorted_cues_first (files : list string) :
  let sorted := sortByPath files in
  Permutation files sorted
  /\ StronglySorted Path.le sorted
  /\ sortFiles files = List.filter Path.isCue sorted ++ List.filter notCue sorted
  /\ StronglySorted Path.le (List.filter Path.isCue sorted)
  /\ StronglySorted Path.le (List.filter notCue sorted)
  /\ Permutation files (sortFiles files)
  /\ (forall files', Permutation files files' -> sortFiles files' = sortFiles files).
Proof.
  intros sorted. subst sorted.
  assert (Hperm : Permutation files (sortByPath files))
    by apply (stable_sort_perm Path.less).
  repeat split.
  - exact Hperm.
  - apply sortByPath_sorted.
  - apply stable_sort_cueFirst.
  - apply StronglySorted_keeps_filter, sortByPath_sorted.
  - apply StronglySorted_keeps_filter, sortByPath_sorted.
  - unfold sortFiles. rewrite <- (stable_sort_perm cueFirst). exact Hperm.
  - intros files' Hp. unfold sortFiles.
    now rewrite (sortByPath_perm_invariant files files' Hp).
Qed.

Lemma sortFiles_sorted_cues_first_witness :
  sortFiles ["/m/b.flac"; "/m/a.CUE"; "/m/a.flac"; "/m/z.cue"]%string
  = ["/m/a.CUE"; "/m/z.cue"; "/m/a.flac"; "/m/b.flac"]%string
  /\ sortFiles ["/m/z.cue"; "/m/a.flac"; "/m/b.flac"; "/m/a.CUE"]%string
     = sortFiles ["/m/b.flac"; "/m/a.CUE"; "/m/a.flac"; "/m/z.cue"]%string.
Proof.
  split; [reflexivity|].
  apply (sortFiles_sorted_cues_first
           ["/m/b.flac"; "/m/a.CUE"; "/m/a.flac"; "/m/z.cue"]%string).
  apply Stdlib.Sorting.Permutation.NoDup_Permutation.
  - repeat constructor; simpl; intuition discriminate.
  - repeat constructor; simpl; intuition discriminate.
  - intros x; simpl; intuition.
Defined.

(** ** What the enumerator keeps of its inputs *)

Lemma sortFiles_perm files : Permutation files (sortFiles files).
Proof.
  unfold sortFiles, sortByPath.
  rewrite <- (stable_sort_perm cueFirst). apply (stable_sort_perm Path.less).
Qed.

Lemma sortFiles_In x files : In x (sortFiles files) <-> In x files.
Proof.
  split; apply Permutation_in; [symmetry|]; apply sortFiles_perm.
Qed.

Lemma getFiles_In fs wild urls restrict exclude playlistExts x :
  In x (getFiles fs wild urls restrict exclude playlistExts)
  <-> exists u, In u urls
        /\ In x (filesOfUrl fs wild
                   (fold_left (fun acc ext => removeAll ext acc) exclude restrict)
                   playlistExts u).
Proof.
  unfold getFiles. rewrite sortFiles_In, in_flat_map. reflexivity.
Qed.

(** C5, as the code has it. An input location that is a local file, not a
    directory, is taken into the sequence when its suffix is one of the
    playlist extensions; with any other suffix it contributes nothing, so
    alone it gives the empty sequence. A directory contributes every
    non-empty file its recursive iteration yields under the name filters. *)
Theorem getFiles_file_input fs wild urls restrict exclude playlistExts u :
  In u urls ->
  isLocalFile u = true ->
  fs_isDir fs (toLocalFile u) = false ->
  (contains playlistExts (Path.suffix (toLocalFile u)) = true ->
     In (fs_absoluteFilePath fs (toLocalFile u))
        (getFiles fs wild urls restrict exclude playlistExts))
  /\ (contains playlistExts (Path.suffix (toLocalFile u)) = false ->
        getFiles fs wild [u] restrict exclude playlistExts = []
        /\ getFilesIn fs wild (toLocalFile u) restrict exclude = []).
Proof.
  intros Hin Hlocal Hdir. split.
  - intros Hext. apply getFiles_In. exists u. split; [exact Hin|].
    unfold filesOfUrl. rewrite Hlocal, Hdir, Hext. simpl. now left.
  - intros Hext. unfold getFilesIn, getFiles, filesOfUrl. simpl.
    now rewrite Hlocal, Hdir, Hext.
Qed.

Lemma getFiles_directory_input fs wild urls restrict exclude playlistExts u f sz :
  In u urls ->
  isLocalFile u = true ->
  fs_isDir fs (toLocalFile u) = true ->
  In (f, sz) (fs_dirIterator fs (fs_absoluteFilePath fs (toLocalFile u))
                (wild (fold_left (fun acc ext => removeAll ext acc) exclude restrict))) ->
  0 < sz ->
  In f (getFiles fs wild urls restrict exclude playlistExts).
Proof.
  intros Hin Hlocal Hdir Hf Hsz. apply getFiles_In. exists u. split; [exact Hin|].
  unfold filesOfUrl. rewrite Hlocal, Hdir. simpl.
  apply in_map_iff. exists (f, sz). split; [reflexivity|].
  apply List.filter_In. split; [exact Hf|]. simpl. now apply Z.ltb_lt.
Qed.

Module EnumeratorExamples.
Import Fixtures.

Lemma getFiles_file_input_witness :
  In "/m/list.m3u"%string
     (getFiles musicFs sameList
        [mkUrl true "/m/song.flac"; mkUrl true "/m/list.m3u"]
        ["flac"%string] [] ["m3u"%string])
  /\ getFiles musicFs sameList [mkUrl true "/m/song.flac"]
       ["flac"%string] [] ["m3u"%string] = [].
Proof.
  split.
  - apply (getFiles_file_input musicFs sameList
             [mkUrl true "/m/song.flac"; mkUrl true "/m/list.m3u"]
             ["flac"%string] [] ["m3u"%string] (mkUrl true "/m/list.m3u"));
      [simpl; tauto|reflexivity|reflexivity|reflexivity].
  - apply (getFiles_file_input musicFs sameList [mkUrl true "/m/song.flac"]
             ["flac"%string] [] ["m3u"%string] (mkUrl true "/m/song.flac"));
      [simpl; tauto|reflexivity|reflexivity|reflexivity].
Defined.

(** C5 as stated fails: a media file given as an input location, local and
    not a directory, is absent from the sequence. *)
Lemma getFiles_drops_media_file :
  let urls := [mkUrl true "/m/song.flac"] in
  In (mkUrl true "/m/song.flac") urls
  /\ fs_isDir musicFs "/m/song.flac" = false
  /\ fs_exists musicFs "/m/song.flac" = true
  /\ ~ In (fs_absoluteFilePath musicFs "/m/song.flac")
          (getFiles musicFs sameList urls ["flac"%string] [] ["m3u"%string]).
Proof.
  simpl. repeat split; [now left|]. vm_compute. tauto.
Qed.
End EnumeratorExamples.

(** ** The batch writer *)

Lemma dbWritten_app l1 l2 : dbWritten (l1 ++ l2) = dbWritten l1 ++ dbWritten l2.
Proof.
  induction l1 as [|e r IH]; simpl; [reflexivity|].
  destruct e; rewrite ?IH, <- ?app_assoc; reflexivity.
Qed.

Section BatchWriter.
Context (db : TrackDatabase).

Lemma checkBatchFinished_below s :
  (List.length (m_tracksToStore s) < BatchSize)%nat ->
  (List.length (m_tracksToUpdate s) <= BatchSize)%nat ->
  checkBatchFinished db s = s.
Proof.
  intros Hs Hu. unfold checkBatchFinished.
  destruct (Nat.leb_spec BatchSize (List.length (m_tracksToStore s))); [lia|].
  destruct (Nat.ltb_spec BatchSize (List.length (m_tracksToUpdate s))); [lia|].
  reflexivity.
Qed.


(** When the insert queue trips the threshold while the update queue is
    short of it, the update queue is emptied and only the inserts reach
    the store. *)
Lemma checkBatchFinished_short_update_queue s :
  (BatchSize <= List.length (m_tracksToStore s))%nat ->
  (List.length (m_tracksToUpdate s) < BatchSize)%nat ->
  m_tracksToStore (checkBatchFinished db s) = []
  /\ m_tracksToUpdate (checkBatchFinished db s) = []
  /\ dbWritten (m_log (checkBatchFinished db s))
     = dbWritten (m_log s) ++ m_tracksToStore s.
Proof.
  intros Hs Hu. unfold checkBatchFinished.
  rewrite (proj2 (Nat.leb_le _ _) Hs). cbn [orb].
  change (m_tracksToUpdate (storeTracks db s)) with (m_tracksToUpdate s).
  rewrite (proj2 (Nat.leb_gt _ _) Hu).
  repeat split. simpl.
  rewrite !dbWritten_app. simpl. now rewrite !app_nil_r.
Qed.
End BatchWriter.

Module BatchExamples.
Import Fixtures.

(** C1 on the code. With 250 tracks in the insert queue and one track in
    the update queue, [checkBatchFinished] writes the inserts, reports
    them, and empties both queues: the queued update is gone without
    having been handed to the store. *)
Theorem checkBatchFinished_clears_unwritten_update :
  let s' := checkBatchFinished plainDb fullInsertQueue in
  In queuedUpdate (m_tracksToUpdate fullInsertQueue)
  /\ m_tracksToStore s' = []
  /\ m_tracksToUpdate s' = []
  /\ m_log s' = m_log fullInsertQueue
                ++ [DbStoreTracks (repeat queuedInsert 250);
                    ScanUpdate (repeat queuedInsert 250) []]
  /\ ~ In queuedUpdate (dbWritten (m_log s')).
Proof.
  assert (Hw : dbWritten (m_log (checkBatchFinished plainDb fullInsertQueue))
               = repeat queuedInsert 250).
  { apply (checkBatchFinished_short_update_queue plainDb fullInsertQueue);
      vm_compute; lia. }
  cbv zeta. rewrite Hw. repeat split; try (now left); try reflexivity.
  intros Hin. apply repeat_spec in Hin. discriminate Hin.
Qed.

(** An update queue of exactly 250 tracks does not trip the threshold. *)
Lemma checkBatchFinished_update_queue_at_threshold :
  let s := set_tracksToUpdate (repeat queuedUpdate 250) scanning in
  checkBatchFinished plainDb s = s.
Proof. reflexivity. Qed.
End BatchExamples.

(** ** The scanner *)
Section ScannerFacts.
Context `{TrackOps}.
Context (fs : FileSystem) (loader : AudioLoader) (playlists : PlaylistLoader)
        (db : TrackDatabase) (worker : Worker) (settings : FySettings).
Context (wild : list string -> list string)
        (subdirs : string -> list string) (now : Z).

#[local] Set Default Proof Using "Type".

(** *** Track properties *)

Lemma readFileProperties_keeps track :
  t_id (readFileProperties fs now track) = t_id track
  /\ t_filepath (readFileProperties fs now track) = t_filepath track
  /\ t_extraTags (readFileProperties fs now track) = t_extraTags track
  /\ t_libraryId (readFileProperties fs now track) = t_libraryId track.
Proof.
  unfold readFileProperties.
  destruct (t_addedTime track =? 0); simpl;
    repeat match goal with |- context [if ?b then _ else _] => destruct b; simpl end;
    repeat split; reflexivity.
Qed.

Lemma setTrackPropsAt_fields s track file :
  let props := setTrackPropsAt fs now s track file in
  t_id props = t_id track
  /\ t_filepath props = file
  /\ t_extraTags props = t_extraTags track
  /\ t_isEnabled props = true
  /\ (0 <= lib_id (m_currentLibrary s) ->
      t_libraryId props = lib_id (m_currentLibrary s)).
Proof.
  destruct (readFileProperties_keeps track) as (Hid & _ & Hx & _).
  unfold setTrackPropsAt. cbv zeta.
  destruct (Z.leb_spec 0 (lib_id (m_currentLibrary s))); simpl;
    repeat split; try assumption; try reflexivity; lia.
Qed.

Lemma setTrackPropsAt_library s s' track file :
  m_currentLibrary s = m_currentLibrary s' ->
  setTrackPropsAt fs now s track file = setTrackPropsAt fs now s' track file.
Proof. intros Hl. unfold setTrackPropsAt. now rewrite Hl. Qed.

Lemma hasExtraTag_props s track file key :
  hasExtraTag (setTrackPropsAt fs now s track file) key = hasExtraTag track key.
Proof.
  unfold hasExtraTag.
  now destruct (setTrackPropsAt_fields s track file) as (_ & _ & -> & _).
Qed.

(** *** Reading a known, unchanged file *)


(** *** Updating a track the store does not know *)

Lemma fold_update_queue (f : ScanState -> Track -> Track)
    (step : ScanState -> Track -> ScanState) (l : list Track) (s : ScanState) :
  (forall s t, m_tracksToUpdate (step s t) = m_tracksToUpdate s ++ [f s t]) ->
  (forall s t, m_currentLibrary (step s t) = m_currentLibrary s) ->
  (forall s s' t, m_currentLibrary s = m_currentLibrary s' -> f s t = f s' t) ->
  m_tracksToUpdate (fold_left step l s) = m_tracksToUpdate s ++ map (f s) l.
Proof.
  intros Hq Hlib Hf. revert s. induction l as [|t r IH]; intros s; simpl.
  - now rewrite app_nil_r.
  - rewrite IH, Hq. rewrite <- app_assoc. simpl. do 2 f_equal.
    apply map_ext. intros t'. apply Hf. now rewrite Hlib.
Qed.

Lemma fold_store_queue (f : ScanState -> Track -> Track)
    (step : ScanState -> Track -> ScanState) (l : list Track) (s : ScanState) :
  (forall s t, m_tracksToStore (step s t) = m_tracksToStore s ++ [f s t]) ->
  (forall s t, m_currentLibrary (step s t) = m_currentLibrary s) ->
  (forall s s' t, m_currentLibrary s = m_currentLibrary s' -> f s t = f s' t) ->
  m_tracksToStore (fold_left step l s) = m_tracksToStore s ++ map (f s) l.
Proof.
  intros Hq Hlib Hf. revert s. induction l as [|t r IH]; intros s; simpl.
  - now rewrite app_nil_r.
  - rewrite IH, Hq. rewrite <- app_assoc. simpl. do 2 f_equal.
    apply map_ext. intros t'. apply Hf. now rewrite Hlib.
Qed.

(** A loop that leaves a field alone at every step leaves it alone. *)
Lemma fold_keeps {A} (proj : ScanState -> A)
    (step : ScanState -> Track -> ScanState) (l : list Track) (s : ScanState) :
  (forall s t, proj (step s t) = proj s) ->
  proj (fold_left step l s) = proj s.
Proof.
  intros Hk. revert s. induction l as [|t r IH]; intros s; simpl; [reflexivity|].
  now rewrite IH, Hk.
Qed.

(** C9, as the code has it. A track with a negative id that the store
    cannot identify either draws a warning; without an embedded cue sheet
    it is then appended to the update queue, its negative id kept, and with
    one the tracks read from the cue sheet are appended in its place. *)
Theorem updateExistingTrack_unknown_to_store track file s :
  let props := setTrackPropsAt fs now s track file in
  let s' := updateExistingTrack fs playlists db now track file s in
  t_id track < 0 ->
  idForTrack db props < 0 ->
  (hasExtraTag track "CUESHEET" = false ->
     m_tracksToUpdate s' = m_tracksToUpdate s ++ [props]
     /\ t_id props = t_id track
     /\ m_tracksToStore s' = m_tracksToStore s
     /\ m_log s' = m_log s ++ [Warning file])
  /\ (hasExtraTag track "CUESHEET" = true ->
        let known := match m_existingCueTracks s !! t_filepath props with
                     | Some tracks => byUniqueFilepath tracks
                     | None => ∅
                     end in
        m_tracksToUpdate s'
        = m_tracksToUpdate s
          ++ map (fun cueTrack => setTrackPropsAt fs now s (adoptId known cueTrack) file)
                 (readEmbeddedPlaylistTracks playlists props)
        /\ m_tracksToStore s' = m_tracksToStore s
        /\ m_log s' = m_log s ++ [Warning file; ReadEmbeddedPlaylist (t_filepath props)]).
Proof.
  intros props s' Hid Hdb.
  assert (Hpid : t_id props = t_id track)
    by apply (setTrackPropsAt_fields s track file).
  assert (Hneg : (t_id props <? 0) = true) by (apply Z.ltb_lt; lia).
  assert (Hdbneg : (idForTrack db props <? 0) = true) by (now apply Z.ltb_lt).
  split; [intros Hcue|intros Hcue known]; subst s'; unfold updateExistingTrack;
    fold props; cbv zeta; rewrite Hneg, Hdbneg, (hasExtraTag_props s track file), Hcue.
  - simpl. repeat split. exact Hpid.
  - split; [|split].
    + rewrite (fold_update_queue
                 (fun s c => setTrackPropsAt fs now s (adoptId known c) file)).
      * simpl. reflexivity.
      * reflexivity.
      * reflexivity.
      * intros s1 s2 t Hl. now apply setTrackPropsAt_library.
    + now rewrite (fold_keeps m_tracksToStore).
    + rewrite (fold_keeps m_log) by reflexivity. simpl. now rewrite <- app_assoc.
Qed.

(** *** A run that is told to stop *)



(** *** Identity matching *)













(** *** The missing-file indexes *)

Lemma emplace_lookup {V} (k k' : string) (v : V) (m : gmap string V) :
  emplace k v m !! k'
  = match m !! k' with
    | Some w => Some w
    | None => if decide (k = k') then Some v else None
    end.
Proof.
  unfold emplace. destruct (decide (k = k')) as [->|Hne].
  - destruct (m !! k') eqn:Hk; [now rewrite Hk|]. now rewrite lookup_insert_eq.
  - destruct (m !! k) eqn:Hk; [now destruct (m !! k')|].
    rewrite lookup_insert_ne by exact Hne. now destruct (m !! k').
Qed.

Lemma populateExistingTrack_missing_indexes includeMissing s track :
  let s1 := populateExistingTrack fs includeMissing s track in
  m_missingFiles s1
  = (if (includeMissing && sourceGone fs track)%bool
     then emplace (filename track) track (m_missingFiles s) else m_missingFiles s)
  /\ m_missingHashes s1
     = (if (includeMissing && sourceGone fs track)%bool
        then emplace (t_hash track) track (m_missingHashes s) else m_missingHashes s).
Proof.
  unfold populateExistingTrack, markMissing, sourceGone.
  destruct includeMissing, (hasCue track), (isInArchive track),
    (fs_exists fs (cuePathKey track)), (fs_exists fs (t_filepath track)),
    (fs_exists fs (archivePath track)); simpl; split; reflexivity.
Qed.

(** A track whose file is gone is indexed under its file name and under its
    hash, unless a track before it in the library's list has taken the key. *)
Lemma populateExistingTracks_marks_missing before track after s :
  sourceGone fs track = true ->
  m_missingFiles s !! filename track = None ->
  m_missingHashes s !! t_hash track = None ->
  (forall t, In t before -> filename t <> filename track /\ t_hash t <> t_hash track) ->
  let s' := populateExistingTracks fs (before ++ track :: after) true s in
  m_missingFiles s' !! filename track = Some track
  /\ m_missingHashes s' !! t_hash track = Some track.
Proof.
  intros Hgone Hf Hh Hbefore. unfold populateExistingTracks. rewrite fold_left_app. cbn [fold_left].
  assert (Hpre : m_missingFiles (fold_left (populateExistingTrack fs true) before s)
                   !! filename track = None
                 /\ m_missingHashes (fold_left (populateExistingTrack fs true) before s)
                      !! t_hash track = None).
  { revert s Hf Hh. induction before as [|t before IH]; intros s Hf Hh; cbn [fold_left]; [auto|].
    destruct (Hbefore t (or_introl eq_refl)) as [Hnf Hnh].
    destruct (populateExistingTrack_missing_indexes true s t) as [Ef Eh].
    apply IH.
    - intros t' Ht'. apply Hbefore. now right.
    - rewrite Ef. destruct (true && sourceGone fs t)%bool; [|exact Hf].
      rewrite emplace_lookup, Hf. now destruct (decide (filename t = filename track)).
    - rewrite Eh. destruct (true && sourceGone fs t)%bool; [|exact Hh].
      rewrite emplace_lookup, Hh. now destruct (decide (t_hash t = t_hash track)). }
  destruct Hpre as [Hpf Hph].
  set (sp := fold_left (populateExistingTrack fs true) before s) in *.
  assert (Hat : m_missingFiles (populateExistingTrack fs true sp track)
                  !! filename track = Some track
                /\ m_missingHashes (populateExistingTrack fs true sp track)
                     !! t_hash track = Some track).
  { destruct (populateExistingTrack_missing_indexes true sp track) as [-> ->].
    rewrite Hgone. cbn [andb]. rewrite !emplace_lookup, Hpf, Hph.
    now rewrite !decide_True by reflexivity. }
  generalize dependent (populateExistingTrack fs true sp track). clear sp Hpf Hph.
  induction after as [|t after IH]; intros st Hat; cbn [fold_left]; [exact Hat|].
  apply IH. destruct Hat as [Hsf Hsh].
  destruct (populateExistingTrack_missing_indexes true st t) as [-> ->].
  destruct (true && sourceGone fs t)%bool; [|auto].
  now rewrite !emplace_lookup, Hsf, Hsh.
Qed.

(** *** The cue indexes *)

Lemma pushBack_is_Some {V} (k k' : string) (v : V) (m : gmap string (list V)) :
  is_Some (pushBack k v m !! k') <-> k = k' \/ is_Some (m !! k').
Proof.
  unfold pushBack. destruct (decide (k = k')) as [->|Hne].
  - rewrite lookup_insert_eq. split; [now left|eauto].
  - rewrite lookup_insert_ne by exact Hne. split; [now right|].
    now intros [?|?].
Qed.

Lemma populateExistingTrack_cue_indexes includeMissing s track :
  let s1 := populateExistingTrack fs includeMissing s track in
  m_existingCueTracks s1
  = (if (includeMissing && hasCue track)%bool
     then pushBack (cuePathKey track) track (m_existingCueTracks s)
     else m_existingCueTracks s)
  /\ m_missingCueTracks s1
     = (if (includeMissing && hasCue track && negb (fs_exists fs (cuePathKey track)))%bool
        then pushBack (cuePathKey track) track (m_missingCueTracks s)
        else m_missingCueTracks s)
  /\ m_tracksToStore s1 = m_tracksToStore s
  /\ m_tracksToUpdate s1 = m_tracksToUpdate s
  /\ m_currentLibrary s1 = m_currentLibrary s.
Proof.
  unfold populateExistingTrack, markMissing.
  destruct includeMissing, (hasCue track), (isInArchive track),
    (fs_exists fs (cuePathKey track)), (fs_exists fs (t_filepath track)),
    (fs_exists fs (archivePath track)); simpl; repeat split; reflexivity.
Qed.

Lemma populateExistingTracks_missing_cue_keys tracks includeMissing s k :
  is_Some (m_missingCueTracks (populateExistingTracks fs tracks includeMissing s) !! k)
  <-> is_Some (m_missingCueTracks s !! k)
      \/ (includeMissing = true
          /\ exists t, In t tracks /\ hasCue t = true /\ cuePathKey t = k
                       /\ fs_exists fs k = false).
Proof.
  clear loader playlists db worker settings wild subdirs now.
  unfold populateExistingTracks. revert s.
  induction tracks as [|track tracks IH]; intros s; simpl.
  - split; [now left|]. intros [?|(_ & t & [] & _)]. assumption.
  - rewrite IH.
    destruct (populateExistingTrack_cue_indexes includeMissing s track) as (_ & -> & _).
    destruct includeMissing, (hasCue track) eqn:Hcue,
      (fs_exists fs (cuePathKey track)) eqn:Hex; simpl;
      rewrite ?pushBack_is_Some; split;
      try (intros [?|(? & t & Ht & ?)]; [now left|right; split; [assumption|]; exists t; tauto]);
      try (intros [?|(? & t & [<-|Ht] & Hc & Hk & He)];
           [now left|congruence|right; split; [assumption|]; exists t; tauto]);
      try (intros [?|(? & t & [<-|Ht] & Hc & Hk & He)];
           [now left|subst k; congruence|right; split; [assumption|]; exists t; tauto]);
      try (intros [?|(? & ?)]; [now left|discriminate]).
    + intros [[<-|?]|(? & t & Ht & ?)];
        [right; split; [reflexivity|]; exists track; tauto|now left|
         right; split; [assumption|]; exists t; tauto].
    + intros [?|(? & t & [<-|Ht] & Hc & Hk & He)];
        [left; now right|left; now left|right; split; [assumption|]; exists t; tauto].
Qed.

Lemma populateExistingTracks_missing_cue_known tracks includeMissing s :
  (forall k, is_Some (m_missingCueTracks s !! k) -> is_Some (m_existingCueTracks s !! k)) ->
  forall k, is_Some (m_missingCueTracks (populateExistingTracks fs tracks includeMissing s) !! k) ->
            is_Some (m_existingCueTracks (populateExistingTracks fs tracks includeMissing s) !! k).
Proof.
  unfold populateExistingTracks. revert s.
  induction tracks as [|track tracks IH]; intros s Hinv; simpl; [exact Hinv|].
  apply IH. intros k.
  destruct (populateExistingTrack_cue_indexes includeMissing s track) as (-> & -> & _).
  destruct includeMissing, (hasCue track), (fs_exists fs (cuePathKey track)); simpl;
    rewrite ?pushBack_is_Some; try apply Hinv.
  - intros Hk. right. now apply Hinv.
  - intros [?|Hk]; [now left|right; now apply Hinv].
Qed.

Lemma addNewCueTracks_faults cue filename s :
  is_Some (m_missingCueTracks s !! filename) ->
  m_missingCueTracks s !! cue = None ->
  addNewCueTracks fs playlists now cue filename s = Fault.
Proof.
  intros [l Hl] Hc. unfold addNewCueTracks. now rewrite Hl, Hc.
Qed.

Lemma addNewCueTracks_reads cue filename s :
  m_missingCueTracks s !! filename = None ->
  exists s',
    addNewCueTracks fs playlists now cue filename s = Ok s'
    /\ m_tracksToUpdate s' = m_tracksToUpdate s
    /\ m_tracksToStore s'
       = m_tracksToStore s
         ++ map (setTrackProps fs now s) (readPlaylistTracks fs playlists cue false).
Proof.
  intros Hf. unfold addNewCueTracks. rewrite Hf. eexists. split; [reflexivity|]. split.
  - now rewrite (fold_keeps m_tracksToUpdate).
  - rewrite (fold_store_queue (setTrackProps fs now));
      [reflexivity|reflexivity|reflexivity|].
    intros s1 s2 t Hl. now apply setTrackPropsAt_library.
Qed.

(** C10. The missing-cue index built by [populateExistingTracks] has as
    keys the cue paths the tracks carry (the track's own path for an
    embedded sheet) that do not exist. [addNewCueTracks] tests the index
    with the bare file name and then reads it with the full path: with the
    bare name a key and the full path not, the read faults, and the branch
    that re-links gets through only if the full path is a key as well.
    [readCue] calls it only for a cue path that is no key of the
    existing-cue index, hence no key of the missing-cue index either: there
    the call faults when the bare name is a key, and otherwise reads the
    sheet again and queues its tracks as inserts, with no update queued. *)
Theorem addNewCueTracks_key_mismatch tracks includeMissing s0 cue onlyModified :
  m_existingCueTracks s0 = ∅ ->
  m_missingCueTracks s0 = ∅ ->
  let s := populateExistingTracks fs tracks includeMissing s0 in
  (forall k, is_Some (m_missingCueTracks s !! k)
             <-> includeMissing = true
                 /\ exists t, In t tracks /\ hasCue t = true /\ cuePathKey t = k
                              /\ fs_exists fs k = false)
  /\ (forall filename st,
        is_Some (m_missingCueTracks st !! filename) ->
        m_missingCueTracks st !! cue = None ->
        addNewCueTracks fs playlists now cue filename st = Fault)
  /\ (forall filename st st',
        is_Some (m_missingCueTracks st !! filename) ->
        addNewCueTracks fs playlists now cue filename st = Ok st' ->
        is_Some (m_missingCueTracks st !! cue))
  /\ (m_existingCueTracks s !! cue = None ->
        m_missingCueTracks s !! cue = None
        /\ (is_Some (m_missingCueTracks s !! Path.fileName cue) ->
              readCue fs playlists now cue onlyModified s = Fault)
        /\ (m_missingCueTracks s !! Path.fileName cue = None ->
              exists s',
                readCue fs playlists now cue onlyModified s = Ok s'
                /\ m_tracksToUpdate s' = m_tracksToUpdate s
                /\ m_tracksToStore s'
                   = m_tracksToStore s
                     ++ map (setTrackProps fs now s)
                            (readPlaylistTracks fs playlists cue false))).
Proof.
  intros He Hm s.
  assert (Hnot : m_existingCueTracks s !! cue = None -> m_missingCueTracks s !! cue = None).
  { intros Hcue. destruct (m_missingCueTracks s !! cue) eqn:Hc; [|reflexivity].
    assert (Hex : is_Some (m_existingCueTracks s !! cue)).
    { apply populateExistingTracks_missing_cue_known; [|eauto].
      intros k. rewrite Hm, lookup_empty. now intros []. }
    rewrite Hcue in Hex. now destruct Hex. }
  split; [|split; [|split]].
  - intros k. unfold s. rewrite populateExistingTracks_missing_cue_keys.
    rewrite Hm, lookup_empty. split; [intros [[? ?]|?]; [discriminate|assumption]|].
    intros Hk. now right.
  - intros filename st. apply addNewCueTracks_faults.
  - intros filename st st' Hf Hok.
    destruct (m_missingCueTracks st !! cue) eqn:Hc; [eauto|].
    rewrite (addNewCueTracks_faults cue filename st Hf Hc) in Hok. discriminate.
  - intros Hcue. split; [now apply Hnot|]. split.
    + intros Hf. unfold readCue. rewrite Hcue.
      apply addNewCueTracks_faults; [exact Hf|now apply Hnot].
    + intros Hf. unfold readCue. rewrite Hcue. now apply addNewCueTracks_reads.
Qed.

(** *** Tracks whose files are gone *)



Lemma demote_fields t :
  t_libraryId (demote t) = -1
  /\ t_isEnabled (demote t) = false
  /\ t_id (demote t) = t_id t
  /\ t_filepath (demote t) = t_filepath t.
Proof. repeat split. Qed.



(** *** A scan with nothing to do *)















End ScannerFacts.

(** ** The scanner on concrete libraries *)
Module ScannerExamples.
Import Fixtures.


Lemma updateExistingTrack_unknown_to_store_witness :
  m_tracksToUpdate
    (updateExistingTrack (H := plainTrackOps) twoFilesFs noPlaylists plainDb 1000
       unsavedTrack "/m/a.flac" scanning)
  = m_tracksToUpdate scanning
    ++ [setTrackPropsAt (H := plainTrackOps) twoFilesFs 1000 scanning unsavedTrack "/m/a.flac"].
Proof.
  apply (updateExistingTrack_unknown_to_store (H := plainTrackOps) twoFilesFs noPlaylists
           plainDb 1000 unsavedTrack "/m/a.flac" scanning);
    [vm_compute; reflexivity|vm_compute; reflexivity|reflexivity].
Defined.

(** C9 as stated fails: a track with a negative id that the store cannot
    identify, carrying an embedded cue sheet in which no track is found,
    is not appended to the update queue, and nothing is in its place. *)
Lemma updateExistingTrack_drops_cue_sheet_track :
  let s' := updateExistingTrack (H := plainTrackOps) twoFilesFs emptyCueParser plainDb 1000
              unsavedCueTrack "/m/a.flac" scanning in
  t_id unsavedCueTrack < 0
  /\ idForTrack plainDb
       (setTrackPropsAt (H := plainTrackOps) twoFilesFs 1000 scanning unsavedCueTrack "/m/a.flac") < 0
  /\ In (Warning "/m/a.flac") (m_log s')
  /\ m_tracksToUpdate s' = []
  /\ m_tracksToStore s' = [].
Proof.
  vm_compute. repeat split; try reflexivity. right. now left.
Qed.




Lemma addNewCueTracks_key_mismatch_witness :
  readCue (H := plainTrackOps) cueFs noPlaylists 1000 "/m/a.cue" true
    (populateExistingTracks (H := plainTrackOps) cueFs [cueTrack] true scanning)
  = Fault.
Proof.
  destruct (addNewCueTracks_key_mismatch (H := plainTrackOps) cueFs noPlaylists
              1000 [cueTrack] true scanning "/m/a.cue" true)
    as (_ & _ & _ & Hread).
  - vm_compute. reflexivity.
  - vm_compute. reflexivity.
  - destruct Hread as (_ & Hfault & _).
    + vm_compute. reflexivity.
    + apply Hfault. vm_compute. eexists. reflexivity.
Defined.




End ScannerExamples.

(** * Further properties of the scanner *)

(** ** The enumerator's filters and order *)

Lemma removeAll_In ext l e : In e (removeAll ext l) <-> In e l /\ e <> ext.
Proof.
  unfold removeAll. rewrite List.filter_In, negb_true_iff.
  split; intros [Hin He]; (split; [exact Hin|]).
  - intros ->. now rewrite String.eqb_refl in He.
  - now apply String.eqb_neq.
Qed.

Lemma nameFilters_In exclude restrict e :
  In e (fold_left (fun acc ext => removeAll ext acc) exclude restrict)
  <-> In e restrict /\ ~ In e exclude.
Proof.
  revert restrict. induction exclude as [|x exclude IH]; intros restrict; simpl.
  - split; [intros He; split; [exact He|now intros []]|now intros [He _]].
  - rewrite IH, removeAll_In. split.
    + intros [[Hin Hne] Hex]. split; [exact Hin|]. intros [->|Hx]; [now apply Hne|now apply Hex].
    + intros [Hin Hex]. split; [split; [exact Hin|]|].
      * intros ->. apply Hex. now left.
      * intros Hx. apply Hex. now right.
Qed.

(** X1. For a directory among its inputs [getFiles] hands the directory
    iterator the restrict extensions that are not excluded, an extension in
    both lists being dropped, and keeps of what the iterator yields the files
    of non-zero size. *)
Theorem getFiles_directory_filters fs wild restrict exclude playlistExts dir :
  fs_isDir fs dir = true ->
  exists nameFilters,
    (forall e, In e nameFilters <-> In e restrict /\ ~ In e exclude)
    /\ getFiles fs wild [mkUrl true dir] restrict exclude playlistExts
       = sortFiles (map fst (List.filter (fun info => Z.ltb 0 (snd info))
                               (fs_dirIterator fs (fs_absoluteFilePath fs dir)
                                  (wild nameFilters))))
    /\ (forall f, In f (getFiles fs wild [mkUrl true dir] restrict exclude playlistExts) ->
          exists sz, 0 < sz
                     /\ In (f, sz) (fs_dirIterator fs (fs_absoluteFilePath fs dir)
                                      (wild nameFilters))).
Proof.
  intros Hdir. eexists. split; [intros e; apply nameFilters_In|].
  assert (Hfiles : getFiles fs wild [mkUrl true dir] restrict exclude playlistExts
                   = sortFiles (map fst (List.filter (fun info => Z.ltb 0 (snd info))
                        (fs_dirIterator fs (fs_absoluteFilePath fs dir)
                           (wild (fold_left (fun acc ext => removeAll ext acc)
                                    exclude restrict)))))).
  { unfold getFiles, filesOfUrl. simpl. rewrite Hdir. now rewrite app_nil_r. }
  split; [exact Hfiles|].
  intros f Hf. rewrite Hfiles in Hf. rewrite !sortFiles_In in Hf.
  apply in_map_iff in Hf as ([f' sz] & <- & Hin).
  apply List.filter_In in Hin as [Hin Hsz]. exists sz. split; [|exact Hin].
  now apply Z.ltb_lt.
Qed.

(** X2. With the default settings (no restrict list, no exclude list stored)
    a library scan enumerates under the loader's supported extensions
    without [cue]: the cue extension it appends is removed again by the
    default exclude list. *)
Theorem libraryFiles_default_filters fs loader settings wild path :
  LibraryRestrictTypes settings = [] ->
  LibraryExcludeTypes settings = None ->
  exists nameFilters,
    (forall e, In e nameFilters <-> In e (supportedFileExtensions loader) /\ e <> "cue"%string)
    /\ libraryFiles fs loader settings wild path
       = sortFiles (filesOfUrl fs wild nameFilters [] (mkUrl true path)).
Proof.
  intros Hr He. eexists. split.
  - intros e. rewrite (removeAll_In "cue" (supportedFileExtensions loader ++ ["cue"%string]) e).
    rewrite in_app_iff. simpl. split.
    + intros [[Hs|[<-|[]]] Hne]; [split; assumption|now destruct Hne].
    + intros [Hs Hne]. split; [now left|exact Hne].
  - unfold libraryFiles, getFilesIn, getFiles. rewrite Hr, He. simpl.
    now rewrite app_nil_r.
Qed.

(** X3. Sorting again changes nothing: [sortFiles] leaves its own output,
    and so the sequence [getFiles] returns, as it is. *)
Theorem sortFiles_idempotent files :
  sortFiles (sortFiles files) = sortFiles files
  /\ forall fs wild urls restrict exclude playlistExts,
       sortFiles (getFiles fs wild urls restrict exclude playlistExts)
       = getFiles fs wild urls restrict exclude playlistExts.
Proof.
  assert (Hidem : forall l, sortFiles (sortFiles l) = sortFiles l).
  { intros l. unfold sortFiles at 1.
    rewrite (sortByPath_perm_invariant (sortFiles l) l); [reflexivity|].
    symmetry. apply sortFiles_perm. }
  split; [apply Hidem|]. intros. unfold getFiles. apply Hidem.
Qed.

(** ** The batch writer's bounds *)

Section BatchBounds.
Context (db : TrackDatabase).

Lemma checkBatchFinished_flushed s :
  (BatchSize <= List.length (m_tracksToStore s))%nat
  \/ (BatchSize < List.length (m_tracksToUpdate s))%nat ->
  m_tracksToStore (checkBatchFinished db s) = []
  /\ m_tracksToUpdate (checkBatchFinished db s) = []
  /\ exists stored updated,
       dbWritten (m_log (checkBatchFinished db s)) = dbWritten (m_log s) ++ stored ++ updated
       /\ (stored = [] \/ stored = m_tracksToStore s)
       /\ (updated = [] \/ updated = m_tracksToUpdate s).
Proof.
  intros Htrip. unfold checkBatchFinished.
  assert (Hcond : (Nat.leb BatchSize (List.length (m_tracksToStore s))
                   || Nat.ltb BatchSize (List.length (m_tracksToUpdate s)))%bool = true).
  { apply orb_true_iff. destruct Htrip; [left; now apply Nat.leb_le|right; now apply Nat.ltb_lt]. }
  rewrite Hcond.
  destruct (Nat.leb BatchSize (List.length (m_tracksToStore s))).
  - change (m_tracksToUpdate (storeTracks db s)) with (m_tracksToUpdate s).
    destruct (Nat.leb BatchSize (List.length (m_tracksToUpdate s))).
    + repeat split. exists (m_tracksToStore s), (m_tracksToUpdate s).
      split; [|auto]. simpl. rewrite !dbWritten_app. simpl.
      now rewrite !app_nil_r, <- app_assoc.
    + repeat split. exists (m_tracksToStore s), []. split; [|auto]. simpl.
      rewrite !dbWritten_app. simpl. now rewrite !app_nil_r.
  - destruct (Nat.leb BatchSize (List.length (m_tracksToUpdate s))).
    + repeat split. exists [], (m_tracksToUpdate s). split; [|auto]. simpl.
      rewrite !dbWritten_app. simpl. now rewrite !app_nil_r.
    + repeat split. exists [], []. split; [|auto]. simpl.
      rewrite !dbWritten_app. simpl. now rewrite !app_nil_r.
Qed.

(** X4. After [checkBatchFinished] the insert queue holds fewer than 250
    tracks and the update queue at most 250; a call that finds the queues
    within these bounds changes nothing, and whatever a call hands to the
    store was in one of the two queues. *)
Theorem checkBatchFinished_bounds s :
  queuesBounded (checkBatchFinished db s)
  /\ (queuesBounded s -> checkBatchFinished db s = s)
  /\ (forall t, In t (dbWritten (m_log (checkBatchFinished db s))) ->
        In t (dbWritten (m_log s))
        \/ In t (m_tracksToStore s) \/ In t (m_tracksToUpdate s)).
Proof.
  destruct (Nat.lt_ge_cases (List.length (m_tracksToStore s)) BatchSize) as [Hs|Hs];
    [destruct (Nat.le_gt_cases (List.length (m_tracksToUpdate s)) BatchSize) as [Hu|Hu]|].
  - rewrite (checkBatchFinished_below db s Hs Hu).
    split; [split; assumption|]. split; [reflexivity|]. intros t Ht. now left.
  - destruct (checkBatchFinished_flushed s (or_intror Hu))
      as (Es & Eu & stored & updated & Ew & Hst & Hup).
    split; [unfold queuesBounded; rewrite Es, Eu; unfold BatchSize; simpl; lia|].
    split; [intros [_ Hb]; lia|].
    intros t Ht. rewrite Ew, !in_app_iff in Ht.
    destruct Ht as [Ht|[Ht|Ht]]; [now left| |].
    + destruct Hst as [->| ->]; [destruct Ht|auto].
    + destruct Hup as [->| ->]; [destruct Ht|auto].
  - destruct (checkBatchFinished_flushed s (or_introl Hs))
      as (Es & Eu & stored & updated & Ew & Hst & Hup).
    split; [unfold queuesBounded; rewrite Es, Eu; unfold BatchSize; simpl; lia|].
    split; [intros [Hb _]; lia|].
    intros t Ht. rewrite Ew, !in_app_iff in Ht.
    destruct Ht as [Ht|[Ht|Ht]]; [now left| |].
    + destruct Hst as [->| ->]; [destruct Ht|auto].
    + destruct Hup as [->| ->]; [destruct Ht|auto].
Qed.

End BatchBounds.

(** ** What the file loop leaves alone *)

Section ScanFrame.
Context `{TrackOps}.
Context (fs : FileSystem) (loader : AudioLoader) (playlists : PlaylistLoader)
        (db : TrackDatabase) (worker : Worker).
Context (now : Z).

#[local] Set Default Proof Using "Type".

Lemma updateExistingTrack_frame track file s :
  readFrame (updateExistingTrack fs playlists db now track file s) = readFrame s.
Proof.
  unfold updateExistingTrack. cbv zeta.
  destruct (Z.ltb (t_id _) 0); [destruct (Z.ltb (idForTrack db _) 0)|];
    (destruct (hasExtraTag _ "CUESHEET");
     [rewrite (fold_keeps readFrame) by reflexivity; reflexivity|reflexivity]).
Qed.

Lemma readNewTrack_frame file s :
  readFrame (readNewTrack fs loader playlists now file s) = readFrame s.
Proof.
  unfold readNewTrack. rewrite (fold_keeps readFrame); [reflexivity|].
  intros st t. unfold readNewTrackStep.
  destruct (_ || _)%bool; [reflexivity|].
  destruct (hasExtraTag _ _); [|reflexivity].
  now rewrite (fold_keeps readFrame).
Qed.

Lemma readFile_frame file onlyModified s s' :
  readFile fs loader playlists db worker now file onlyModified s = Ok s' ->
  readFrame s' = readFrame s.
Proof.
  unfold readFile. cbv zeta.
  destruct (mayRun worker s); simpl; [|now intros [= <-]].
  destruct (bool_decide _); [now intros [= <-]|].
  destruct (m_trackPaths s !! file) as [[|t l]|]; [discriminate| |].
  - destruct (needsRead _ _ _ _); [|now intros [= <-]].
    destruct (readTrackMetadata loader t); intros [= <-]; [|reflexivity].
    now rewrite updateExistingTrack_frame.
  - destruct (m_existingArchives s !! file) as [[|t l]|]; [discriminate| |].
    + destruct (needsRead _ _ _ _); intros [= <-]; [|reflexivity].
      rewrite (fold_keeps readFrame); [reflexivity|].
      intros st tr. apply updateExistingTrack_frame.
    + intros [= <-]. now rewrite readNewTrack_frame.
Qed.

Lemma readCue_frame cue onlyModified s s' :
  readCue fs playlists now cue onlyModified s = Ok s' ->
  readFrame s' = readFrame s.
Proof.
  unfold readCue, addNewCueTracks, updateExistingCueTracks.
  destruct (m_existingCueTracks s !! cue) as [[|t l]|]; [discriminate| |].
  - destruct (_ || _)%bool; intros [= <-]; now rewrite (fold_keeps readFrame).
  - destruct (m_missingCueTracks s !! Path.fileName cue).
    + destruct (m_missingCueTracks s !! cue); [|discriminate].
      intros [= <-]. now rewrite (fold_keeps readFrame).
    + intros [= <-]. now rewrite (fold_keeps readFrame).
Qed.

Lemma checkBatchFinished_frame s :
  readFrame (checkBatchFinished db s) = readFrame s.
Proof.
  unfold checkBatchFinished.
  destruct (_ || _)%bool; [|reflexivity].
  destruct (Nat.leb BatchSize (List.length (m_tracksToStore s)));
    match goal with |- context [if ?b then _ else _] => destruct b end; reflexivity.
Qed.

Lemma checkBatchFinished_keeps_bound s : queuesBounded (checkBatchFinished db s).
Proof.
  destruct (Nat.lt_ge_cases (List.length (m_tracksToStore s)) BatchSize) as [Hs|Hs];
    [destruct (Nat.le_gt_cases (List.length (m_tracksToUpdate s)) BatchSize) as [Hu|Hu]|].
  - rewrite (checkBatchFinished_below db s Hs Hu). now split.
  - destruct (checkBatchFinished_flushed db s (or_intror Hu)) as (Es & Eu & _).
    unfold queuesBounded. rewrite Es, Eu. unfold BatchSize. simpl. lia.
  - destruct (checkBatchFinished_flushed db s (or_introl Hs)) as (Es & Eu & _).
    unfold queuesBounded. rewrite Es, Eu. unfold BatchSize. simpl. lia.
Qed.

(** One turn of the file loop, after [mayRun] has held. *)
Lemma scanFilesLoop_step file files onlyModified s r :
  mayRun worker s = true ->
  scanFilesLoop fs loader playlists db worker now (file :: files) onlyModified s = Ok r ->
  exists s1,
    (if String.eqb (Path.suffix file) "cue"
     then readCue fs playlists now (fs_absoluteFilePath fs file) onlyModified (polled s)
     else readFile fs loader playlists db worker now (fs_absoluteFilePath fs file)
            onlyModified (polled s)) = Ok s1
    /\ readFrame s1 = readFrame s
    /\ scanFilesLoop fs loader playlists db worker now files onlyModified
         (checkBatchFinished db (fileScanned (fs_absoluteFilePath fs file) s1)) = Ok r.
Proof.
  intros Hrun. cbn [scanFilesLoop]. rewrite Hrun. cbn [negb].
  destruct (if String.eqb (Path.suffix file) "cue" then _ else _) as [s1|] eqn:Hread;
    [|discriminate].
  intros Hloop. exists s1. split; [reflexivity|]. split; [|exact Hloop].
  destruct (String.eqb (Path.suffix file) "cue").
  - now rewrite (readCue_frame _ _ _ _ Hread).
  - now rewrite (readFile_frame _ _ _ _ Hread).
Qed.

(** X5. Between two files of a scan the queues stay within the batch
    bounds: a file loop entered with fewer than 250 queued inserts and at
    most 250 queued updates ends, finished or stopped, within the same
    bounds. *)
Theorem scanFilesLoop_queues_bounded files onlyModified s finished s' :
  queuesBounded s ->
  scanFilesLoop fs loader playlists db worker now files onlyModified s = Ok (finished, s') ->
  queuesBounded s'.
Proof.
  revert s. induction files as [|file files IH]; intros s Hb Hloop.
  - simpl in Hloop. now injection Hloop as _ <-.
  - destruct (mayRun worker s) eqn:Hrun.
    + destruct (scanFilesLoop_step _ _ _ _ _ Hrun Hloop) as (s1 & _ & _ & Hrest).
      eapply IH; [|exact Hrest]. apply checkBatchFinished_keeps_bound.
    + cbn [scanFilesLoop] in Hloop. rewrite Hrun in Hloop. cbn [negb] in Hloop.
      injection Hloop as _ <-. exact Hb.
Qed.

Lemma size_list_to_set_le (l : list string) :
  (size (list_to_set (C := gset string) l) <= List.length l)%nat.
Proof.
  induction l as [|x l IH].
  - change (size (∅ : gset string) <= 0)%nat. now rewrite size_empty.
  - change (size ({[x]} ∪ (list_to_set l : gset string)) <= S (List.length l))%nat.
    destruct (decide (x ∈ (list_to_set l : gset string))) as [Hin|Hnin].
    + replace ({[x]} ∪ list_to_set l) with (list_to_set l : gset string) by set_solver. lia.
    + rewrite size_union by set_solver. rewrite size_singleton. lia.
Qed.

(** The frame after one turn: the file is added to the scanned files. *)
Lemma scanFilesLoop_turn_frame file s s1 :
  readFrame s1 = readFrame s ->
  readFrame (checkBatchFinished db (fileScanned file s1))
  = (m_trackPaths s, m_existingArchives s, m_existingCueTracks s, m_missingCueTracks s,
     m_currentLibrary s, m_totalFiles s, m_watchers s, m_monitor s, m_state s,
     {[file]} ∪ m_filesScanned s).
Proof.
  intros Hf. rewrite checkBatchFinished_frame. unfold readFrame in *. simpl.
  injection Hf as -> -> -> -> -> -> -> -> -> ->. reflexivity.
Qed.

Lemma scanFilesLoop_frame files onlyModified s finished s' :
  scanFilesLoop fs loader playlists db worker now files onlyModified s = Ok (finished, s') ->
  (m_trackPaths s', m_existingArchives s', m_existingCueTracks s', m_missingCueTracks s',
   m_currentLibrary s', m_totalFiles s', m_watchers s', m_monitor s', m_state s')
  = (m_trackPaths s, m_existingArchives s, m_existingCueTracks s, m_missingCueTracks s,
     m_currentLibrary s, m_totalFiles s, m_watchers s, m_monitor s, m_state s)
  /\ m_filesScanned s ⊆ m_filesScanned s'
  /\ m_filesScanned s' ⊆ m_filesScanned s ∪ list_to_set (map (fs_absoluteFilePath fs) files)
  /\ (finished = true ->
      m_filesScanned s' = m_filesScanned s ∪ list_to_set (map (fs_absoluteFilePath fs) files)).
Proof.
  revert s. induction files as [|file files IH]; intros s Hloop.
  - simpl in Hloop. injection Hloop as _ <-. simpl. repeat split; set_solver.
  - destruct (mayRun worker s) eqn:Hrun.
    + destruct (scanFilesLoop_step _ _ _ _ _ Hrun Hloop) as (s1 & _ & Hf1 & Hrest).
      apply IH in Hrest as (Hframe & Hsub & Hsup & Hall).
      pose proof (scanFilesLoop_turn_frame (fs_absoluteFilePath fs file) s s1 Hf1) as Hturn.
      unfold readFrame in Hturn.
      injection Hturn as E1 E2 E3 E4 E5 E6 E7 E8 E9 E10.
      rewrite E1, E2, E3, E4, E5, E6, E7, E8, E9 in Hframe.
      rewrite E10 in Hsub, Hsup, Hall.
      split; [exact Hframe|]. simpl.
      split; [set_solver|]. split; [set_solver|].
      intros Hfin. rewrite (Hall Hfin). set_solver.
    + cbn [scanFilesLoop] in Hloop. rewrite Hrun in Hloop. cbn [negb] in Hloop.
      injection Hloop as <- <-. simpl. repeat split; set_solver.
Qed.

Lemma populateExistingTracks_keeps tracks includeMissing s :
  let s' := populateExistingTracks fs tracks includeMissing s in
  (m_currentLibrary s', m_totalFiles s', m_watchers s', m_monitor s', m_state s',
   m_filesScanned s', m_cueFilesScanned s', m_tracksToStore s', m_tracksToUpdate s',
   m_log s', m_polls s')
  = (m_currentLibrary s, m_totalFiles s, m_watchers s, m_monitor s, m_state s,
     m_filesScanned s, m_cueFilesScanned s, m_tracksToStore s, m_tracksToUpdate s,
     m_log s, m_polls s).
Proof.
  unfold populateExistingTracks.
  apply (fold_keeps (fun s => (m_currentLibrary s, m_totalFiles s, m_watchers s,
                               m_monitor s, m_state s, m_filesScanned s,
                               m_cueFilesScanned s, m_tracksToStore s,
                               m_tracksToUpdate s, m_log s, m_polls s))).
  intros st t. unfold populateExistingTrack, markMissing.
  destruct includeMissing, (hasCue t), (isInArchive t),
    (fs_exists fs (cuePathKey t)), (fs_exists fs (t_filepath t)),
    (fs_exists fs (archivePath t)); reflexivity.
Qed.

Lemma saveAllTracks_frame s : readFrame (saveAllTracks db s) = readFrame s.
Proof.
  unfold saveAllTracks. cbv zeta.
  match goal with |- context [if ?b then _ else _] => destruct b end; reflexivity.
Qed.

(** X6. [getAndSaveAllTracks] builds its indexes once and then only reads
    them: when it returns, finished or stopped, the path, archive and cue
    indexes are those [populateExistingTracks] built from the given tracks,
    and the current library, the watchers, the monitor flag and the worker
    state it was called with are untouched. *)
Theorem getAndSaveAllTracks_keeps_indexes settings wild path tracks onlyModified s finished s' :
  getAndSaveAllTracks fs loader playlists db worker settings wild now
    path tracks onlyModified s = Ok (finished, s') ->
  let indexed := populateExistingTracks fs tracks true s in
  m_trackPaths s' = m_trackPaths indexed
  /\ m_existingArchives s' = m_existingArchives indexed
  /\ m_existingCueTracks s' = m_existingCueTracks indexed
  /\ m_missingCueTracks s' = m_missingCueTracks indexed
  /\ m_currentLibrary s' = m_currentLibrary s
  /\ m_watchers s' = m_watchers s
  /\ m_monitor s' = m_monitor s
  /\ m_state s' = m_state s.
Proof.
  unfold getAndSaveAllTracks. cbv zeta.
  destruct (scanFilesLoop _ _ _ _ _ _ _ _ _) as [[fin sl]|] eqn:Hloop; [|discriminate].
  apply scanFilesLoop_frame in Hloop as (Hframe & _).
  pose proof (populateExistingTracks_keeps tracks true s) as Hpop.
  cbv zeta in Hpop. injection Hpop as P1 P2 P3 P4 P5 P6 P7 P8 P9 P10 P11.
  simpl. injection Hframe as E1 E2 E3 E4 E5 E6 E7 E8 E9. simpl in *.
  destruct fin; simpl; intros [= <- <-].
  - pose proof (saveAllTracks_frame sl) as Hs. unfold readFrame in Hs.
    injection Hs as -> -> -> -> -> _ -> -> -> _.
    repeat split; congruence.
  - repeat split; congruence.
Qed.

(** X7. Progress stays within the total: [getAndSaveAllTracks] sets the
    total to the number of enumerated files and adds to the scanned files
    only enumerated files, so a run entered with no scanned file never
    counts more scanned files than the total, and a run that finishes has
    every enumerated file among the scanned ones. *)
Theorem getAndSaveAllTracks_progress settings wild path tracks onlyModified s finished s' :
  getAndSaveAllTracks fs loader playlists db worker settings wild now
    path tracks onlyModified s = Ok (finished, s') ->
  let files := libraryFiles fs loader settings wild path in
  m_totalFiles s' = List.length files
  /\ m_filesScanned s'
     ⊆ m_filesScanned s ∪ list_to_set (map (fs_absoluteFilePath fs) files)
  /\ (m_filesScanned s = ∅ -> (size (m_filesScanned s') <= m_totalFiles s')%nat)
  /\ (finished = true ->
      forall file, In file files -> fs_absoluteFilePath fs file ∈ m_filesScanned s').
Proof.
  intros Hrun files.
  assert (Hgen : m_totalFiles s' = List.length files
                 /\ m_filesScanned s'
                    ⊆ m_filesScanned s ∪ list_to_set (map (fs_absoluteFilePath fs) files)
                 /\ (finished = true ->
                     m_filesScanned s'
                     = m_filesScanned s ∪ list_to_set (map (fs_absoluteFilePath fs) files))).
  { revert Hrun. unfold getAndSaveAllTracks. cbv zeta. fold files.
    destruct (scanFilesLoop _ _ _ _ _ _ _ _ _) as [[fin sl]|] eqn:Hloop; [|discriminate].
    apply scanFilesLoop_frame in Hloop as (Hframe & _ & Hsup & Hall).
    pose proof (populateExistingTracks_keeps tracks true s) as Hpop.
    cbv zeta in Hpop. injection Hpop as _ _ _ _ _ P6 _ _ _ _ _.
    injection Hframe as _ _ _ _ _ E6 _ _ _.
    unfold enterFileLoop in E6, Hsup, Hall. simpl in E6, Hsup, Hall.
    rewrite P6 in Hsup, Hall.
    destruct fin; simpl; intros [= <- <-].
    - pose proof (saveAllTracks_frame sl) as Hs. unfold readFrame in Hs.
      injection Hs as _ _ _ _ _ -> _ _ _ ->.
      split; [exact E6|]. split; [exact Hsup|exact Hall].
    - split; [exact E6|]. split; [exact Hsup|discriminate]. }
  destruct Hgen as (Htot & Hsup & Hall).
  split; [exact Htot|]. split; [exact Hsup|]. split.
  - intros Hempty. rewrite Htot, Hempty in *.
    etransitivity; [apply subseteq_size, Hsup|].
    rewrite (left_id_L ∅ (∪)). etransitivity; [apply size_list_to_set_le|].
    now rewrite length_map.
  - intros Hfin file Hin. rewrite (Hall Hfin).
    apply elem_of_union_r, elem_of_list_to_set, list_elem_of_In, in_map, Hin.
Qed.

End ScanFrame.

(** ** The indexes [populateExistingTracks] builds *)

Section IndexFacts.
Context `{TrackOps}.
Context (fs : FileSystem).

#[local] Set Default Proof Using "Type".

Lemma pushBack_lookup {V} (k k' : string) (v : V) (m : gmap string (list V)) :
  pushBack k v m !! k'
  = if decide (k = k') then Some (default [] (m !! k') ++ [v]) else m !! k'.
Proof.
  unfold pushBack. destruct (decide (k = k')) as [->|Hne].
  - now rewrite lookup_insert_eq.
  - now rewrite lookup_insert_ne.
Qed.

(** Pushing the tracks that a test selects, each under its key. *)
Lemma fold_pushBack_lookup (proj : ScanState -> gmap string (list Track))
    (step : ScanState -> Track -> ScanState) (sel : Track -> bool)
    (key : Track -> string) tracks s k :
  (forall s t, proj (step s t)
               = if sel t then pushBack (key t) t (proj s) else proj s) ->
  proj (fold_left step tracks s) !! k
  = match List.filter (fun t => (sel t && String.eqb (key t) k)%bool) tracks with
    | [] => proj s !! k
    | found => Some (default [] (proj s !! k) ++ found)
    end.
Proof.
  intros Hstep. revert s. induction tracks as [|t tracks IH]; intros s;
    cbn [fold_left List.filter]; [reflexivity|].
  rewrite IH, Hstep. destruct (sel t); cbn [andb]; [|reflexivity].
  rewrite pushBack_lookup. destruct (String.eqb_spec (key t) k) as [->|Hne].
  - rewrite decide_True by reflexivity. cbn [default].
    destruct (List.filter _ tracks); [reflexivity|].
    unfold id. now rewrite <- app_assoc.
  - now rewrite decide_False by exact Hne.
Qed.

Lemma populateExistingTrack_path_indexes includeMissing s track :
  let s1 := populateExistingTrack fs includeMissing s track in
  m_trackPaths s1 = pushBack (t_filepath track) track (m_trackPaths s)
  /\ m_existingArchives s1
     = (if isInArchive track
        then pushBack (archivePath track) track (m_existingArchives s)
        else m_existingArchives s).
Proof.
  unfold populateExistingTrack, markMissing.
  destruct includeMissing, (hasCue track), (isInArchive track),
    (fs_exists fs (cuePathKey track)), (fs_exists fs (t_filepath track)),
    (fs_exists fs (archivePath track)); simpl; split; reflexivity.
Qed.

(** X8. Looking a path up in the path index gives the known tracks with
    that path, in the order of the library's list, after whatever the index
    held for it; a path of no track is not a key. The archive index holds in
    the same way the tracks in archives under their archive path, and the
    cue index the tracks with a cue sheet under their sheet's key. *)
Theorem populateExistingTracks_lookup tracks includeMissing s k :
  let s' := populateExistingTracks fs tracks includeMissing s in
  m_trackPaths s' !! k
  = match List.filter (fun t => String.eqb (t_filepath t) k) tracks with
    | [] => m_trackPaths s !! k
    | found => Some (default [] (m_trackPaths s !! k) ++ found)
    end
  /\ m_existingArchives s' !! k
     = match List.filter (fun t => (isInArchive t && String.eqb (archivePath t) k)%bool)
                         tracks with
       | [] => m_existingArchives s !! k
       | found => Some (default [] (m_existingArchives s !! k) ++ found)
       end
  /\ m_existingCueTracks s' !! k
     = match List.filter (fun t => (includeMissing && hasCue t
                                    && String.eqb (cuePathKey t) k)%bool) tracks with
       | [] => m_existingCueTracks s !! k
       | found => Some (default [] (m_existingCueTracks s !! k) ++ found)
       end.
Proof.
  unfold populateExistingTracks. cbv zeta. split; [|split].
  - rewrite (fold_pushBack_lookup m_trackPaths _ (fun _ => true) t_filepath).
    + reflexivity.
    + intros st t. apply populateExistingTrack_path_indexes.
  - rewrite (fold_pushBack_lookup m_existingArchives _ isInArchive archivePath).
    + reflexivity.
    + intros st t. apply populateExistingTrack_path_indexes.
  - rewrite (fold_pushBack_lookup m_existingCueTracks _
               (fun t => (includeMissing && hasCue t)%bool) cuePathKey).
    + reflexivity.
    + intros st t. apply populateExistingTrack_cue_indexes.
Qed.

Lemma emplace_fold_lookup (proj : ScanState -> gmap string Track)
    (step : ScanState -> Track -> ScanState) (sel : Track -> bool)
    (key : Track -> string) tracks s k :
  (forall s t, proj (step s t)
               = if sel t then emplace (key t) t (proj s) else proj s) ->
  proj (fold_left step tracks s) !! k
  = match proj s !! k with
    | Some t => Some t
    | None => List.find (fun t => (sel t && String.eqb (key t) k)%bool) tracks
    end.
Proof.
  intros Hstep. revert s. induction tracks as [|t tracks IH]; intros s;
    cbn [fold_left List.find]; [now destruct (proj s !! k)|].
  rewrite IH, Hstep. destruct (sel t); cbn [andb]; [|reflexivity].
  rewrite emplace_lookup. destruct (proj s !! k) as [t0|]; [reflexivity|].
  destruct (String.eqb_spec (key t) k) as [->|Hne].
  - now rewrite decide_True by reflexivity.
  - now rewrite decide_False by exact Hne.
Qed.

(** X9. A missing-file key goes to the first track that claims it: after
    [populateExistingTracks] with the missing tracks included, the index
    holds under a file name the first track of the list whose file (or
    archive) is gone and that has this file name, unless the name was taken
    before, and under a hash likewise; later tracks with the same key are
    not indexed. Without the missing tracks ([scanFiles], [scanPlaylist])
    the two missing indexes and the two cue indexes are left as they were. *)
Theorem populateExistingTracks_missing_lookup tracks s :
  (forall k,
     m_missingFiles (populateExistingTracks fs tracks true s) !! k
     = match m_missingFiles s !! k with
       | Some t => Some t
       | None => List.find (fun t => (sourceGone fs t && String.eqb (filename t) k)%bool)
                           tracks
       end)
  /\ (forall k,
        m_missingHashes (populateExistingTracks fs tracks true s) !! k
        = match m_missingHashes s !! k with
          | Some t => Some t
          | None => List.find (fun t => (sourceGone fs t && String.eqb (t_hash t) k)%bool)
                              tracks
          end)
  /\ (let s' := populateExistingTracks fs tracks false s in
      m_missingFiles s' = m_missingFiles s
      /\ m_missingHashes s' = m_missingHashes s
      /\ m_existingCueTracks s' = m_existingCueTracks s
      /\ m_missingCueTracks s' = m_missingCueTracks s).
Proof.
  unfold populateExistingTracks. split; [|split].
  - intros k. apply (emplace_fold_lookup m_missingFiles _ (sourceGone fs) filename).
    intros st t. apply (populateExistingTrack_missing_indexes fs true).
  - intros k. apply (emplace_fold_lookup m_missingHashes _ (sourceGone fs) t_hash).
    intros st t. apply (populateExistingTrack_missing_indexes fs true).
  - cbv zeta.
    rewrite (fold_keeps m_missingFiles), (fold_keeps m_missingHashes),
      (fold_keeps m_existingCueTracks), (fold_keeps m_missingCueTracks); [auto|..];
      intros st t; unfold populateExistingTrack; destruct (isInArchive t); reflexivity.
Qed.

End IndexFacts.

(** ** Runs that cannot fault *)

Section NoFault.
Context `{TrackOps}.
Context (fs : FileSystem) (loader : AudioLoader) (playlists : PlaylistLoader)
        (db : TrackDatabase) (worker : Worker) (settings : FySettings).
Context (wild : list string -> list string) (now : Z).

#[local] Set Default Proof Using "Type".

Lemma fold_pushBack_nonempty (proj : ScanState -> gmap string (list Track))
    (step : ScanState -> Track -> ScanState) (sel : Track -> bool)
    (key : Track -> string) tracks s :
  (forall s t, proj (step s t)
               = if sel t then pushBack (key t) t (proj s) else proj s) ->
  (forall k, proj s !! k <> Some []) ->
  forall k, proj (fold_left step tracks s) !! k <> Some [].
Proof.
  intros Hstep. revert s. induction tracks as [|t tracks IH]; intros s Hs;
    cbn [fold_left]; [exact Hs|].
  apply IH. intros k. rewrite Hstep. destruct (sel t); [|apply Hs].
  rewrite pushBack_lookup. destruct (decide (key t = k)); [|apply Hs].
  intros [= Habs]. now destruct (default [] (proj s !! k)).
Qed.

Lemma populateExistingTracks_listsNonEmpty tracks includeMissing s :
  listsNonEmpty s -> listsNonEmpty (populateExistingTracks fs tracks includeMissing s).
Proof.
  intros (Hp & Ha & Hc). unfold populateExistingTracks. split; [|split].
  - apply (fold_pushBack_nonempty m_trackPaths _ (fun _ => true) t_filepath); [|exact Hp].
    intros st t. apply populateExistingTrack_path_indexes.
  - apply (fold_pushBack_nonempty m_existingArchives _ isInArchive archivePath); [|exact Ha].
    intros st t. apply populateExistingTrack_path_indexes.
  - apply (fold_pushBack_nonempty m_existingCueTracks _
             (fun t => (includeMissing && hasCue t)%bool) cuePathKey); [|exact Hc].
    intros st t. apply populateExistingTrack_cue_indexes.
Qed.

Lemma readFile_no_fault file onlyModified s :
  listsNonEmpty s ->
  exists s', readFile fs loader playlists db worker now file onlyModified s = Ok s'.
Proof.
  intros (Hp & Ha & _). unfold readFile. cbv zeta.
  destruct (mayRun worker s); cbn [negb]; [|eauto].
  destruct (bool_decide _); [eauto|].
  change (m_trackPaths (polled s)) with (m_trackPaths s).
  change (m_existingArchives (polled s)) with (m_existingArchives s).
  pose proof (Hp file) as Hpf. pose proof (Ha file) as Haf.
  destruct (m_trackPaths s !! file) as [[|t l]|]; [congruence| |].
  - destruct (needsRead _ _ _ _); [|eauto].
    destruct (readTrackMetadata loader t); eauto.
  - destruct (m_existingArchives s !! file) as [[|t l]|]; [congruence| |eauto].
    destruct (needsRead _ _ _ _); eauto.
Qed.

Lemma readCue_no_fault cue onlyModified s :
  listsNonEmpty s ->
  m_missingCueTracks s !! Path.fileName cue = None ->
  exists s', readCue fs playlists now cue onlyModified s = Ok s'.
Proof.
  intros (_ & _ & Hc) Hm. unfold readCue, addNewCueTracks. rewrite Hm.
  pose proof (Hc cue) as Hcc.
  destruct (m_existingCueTracks s !! cue) as [[|t l]|]; [congruence| |eauto].
  destruct (_ || _)%bool; eauto.
Qed.

Lemma scanFilesLoop_no_fault files onlyModified s :
  listsNonEmpty s ->
  (forall file, In file files ->
     m_missingCueTracks s !! Path.fileName (fs_absoluteFilePath fs file) = None) ->
  exists r, scanFilesLoop fs loader playlists db worker now files onlyModified s = Ok r.
Proof.
  revert s. induction files as [|file files IH]; intros s Hne Hcue; [simpl; eauto|].
  cbn [scanFilesLoop]. destruct (mayRun worker s); cbn [negb]; [|eauto].
  assert (Hread : exists s1,
             (if String.eqb (Path.suffix file) "cue"
              then readCue fs playlists now (fs_absoluteFilePath fs file) onlyModified (polled s)
              else readFile fs loader playlists db worker now (fs_absoluteFilePath fs file)
                     onlyModified (polled s)) = Ok s1
             /\ readFrame s1 = readFrame s).
  { destruct (String.eqb (Path.suffix file) "cue").
    - destruct (readCue_no_fault (fs_absoluteFilePath fs file) onlyModified (polled s))
        as [s1 Hs1]; [exact Hne|apply Hcue; now left|].
      exists s1. split; [exact Hs1|]. now rewrite (readCue_frame _ _ _ _ _ _ _ Hs1).
    - destruct (readFile_no_fault (fs_absoluteFilePath fs file) onlyModified (polled s))
        as [s1 Hs1]; [exact Hne|].
      exists s1. split; [exact Hs1|].
      now rewrite (readFile_frame _ _ _ _ _ _ _ _ _ _ Hs1). }
  destruct Hread as (s1 & -> & Hf). cbn [bind].
  pose proof (scanFilesLoop_turn_frame db (fs_absoluteFilePath fs file) s s1 Hf) as Hturn.
  unfold readFrame in Hturn. injection Hturn as E1 E2 E3 E4 _ _ _ _ _ _.
  apply IH.
  - destruct Hne as (Hp & Ha & Hc). unfold listsNonEmpty. rewrite E1, E2, E3. auto.
  - intros f Hf'. rewrite E4. apply Hcue. now right.
Qed.

(** X10. A library scan cannot die on an unchecked access unless a known
    track's cue sheet is gone: started on indexes without an empty list and
    with an empty missing-cue index, and given tracks whose cue sheets all
    exist, [getAndSaveAllTracks] returns, finished or stopped, for every
    content of the library directory. *)
Theorem getAndSaveAllTracks_no_fault path tracks onlyModified s :
  listsNonEmpty s ->
  m_missingCueTracks s = ∅ ->
  (forall t, In t tracks -> hasCue t = true -> fs_exists fs (cuePathKey t) = true) ->
  exists finished s',
    getAndSaveAllTracks fs loader playlists db worker settings wild now
      path tracks onlyModified s = Ok (finished, s').
Proof.
  intros Hne Hm Hcues. unfold getAndSaveAllTracks. cbv zeta.
  destruct (scanFilesLoop_no_fault (libraryFiles fs loader settings wild path) onlyModified
              (enterFileLoop fs (libraryFiles fs loader settings wild path) tracks s))
    as [[fin sl] Hloop].
  - unfold enterFileLoop, reportProgress, logEvent, listsNonEmpty. simpl.
    now apply populateExistingTracks_listsNonEmpty.
  - intros file _. unfold enterFileLoop, reportProgress, logEvent. simpl.
    destruct (m_missingCueTracks (populateExistingTracks fs tracks true s)
                !! Path.fileName (fs_absoluteFilePath fs file)) eqn:Hk; [|reflexivity].
    assert (Hsome : is_Some (m_missingCueTracks (populateExistingTracks fs tracks true s)
                               !! Path.fileName (fs_absoluteFilePath fs file))) by eauto.
    apply populateExistingTracks_missing_cue_keys in Hsome
      as [Hold|(_ & t & Ht & Hc & <- & Hex)].
    + rewrite Hm, lookup_empty in Hold. now destruct Hold.
    + rewrite (Hcues t Ht Hc) in Hex. discriminate.
  - rewrite Hloop. cbn [bind]. destruct fin; simpl; eauto.
Qed.

End NoFault.

(** ** Cue sheets and the files they name *)

Section CueFacts.
Context `{TrackOps}.
Context (fs : FileSystem) (loader : AudioLoader) (playlists : PlaylistLoader)
        (db : TrackDatabase) (worker : Worker) (now : Z).

#[local] Set Default Proof Using "Type".

Lemma setTrackProps_filepath s track :
  t_filepath (setTrackProps fs now s track) = t_filepath track.
Proof.
  unfold setTrackProps.
  now destruct (setTrackPropsAt_fields fs now s track (t_filepath track)) as (_ & -> & _).
Qed.

Lemma adoptId_fields existingTrackPaths track :
  t_filepath (adoptId existingTrackPaths track) = t_filepath track
  /\ t_extraTags (adoptId existingTrackPaths track) = t_extraTags track.
Proof. unfold adoptId. now destruct (existingTrackPaths !! _). Qed.

Lemma fold_cue_files (step : ScanState -> Track -> ScanState) l s :
  (forall s t, m_cueFilesScanned (step s t) = {[t_filepath t]} ∪ m_cueFilesScanned s) ->
  forall p, p ∈ m_cueFilesScanned (fold_left step l s)
            <-> p ∈ m_cueFilesScanned s \/ In p (map t_filepath l).
Proof.
  intros Hstep. revert s. induction l as [|t l IH]; intros s p; cbn [fold_left map In].
  - split; [now left|]. now intros [?|[]].
  - rewrite IH, Hstep. set_solver.
Qed.

Lemma readFile_skips_cue_media file onlyModified s :
  file ∈ m_cueFilesScanned s ->
  readFile fs loader playlists db worker now file onlyModified s = Ok (polled s).
Proof.
  intros Hin. unfold readFile. cbv zeta.
  destruct (mayRun worker s); cbn [negb]; [|reflexivity].
  now rewrite bool_decide_eq_true_2.
Qed.

(** X11. A cue sheet that is read, not re-linked, accounts for its media
    files: after [readCue] the paths of the sheet's tracks (of the known
    tracks when the sheet is unchanged under [onlyModified]) are in
    [m_cueFilesScanned], nothing else is added, and [readFile] on such a
    path does nothing but look at [mayRun] from then on. *)
Theorem readCue_registers_media cue onlyModified s s' :
  readCue fs playlists now cue onlyModified s = Ok s' ->
  (m_existingCueTracks s !! cue = None ->
   m_missingCueTracks s !! Path.fileName cue = None) ->
  exists media,
    (media = readPlaylistTracks fs playlists cue false
     \/ (m_existingCueTracks s !! cue = Some media /\ onlyModified = true))
    /\ (forall p, p ∈ m_cueFilesScanned s'
                  <-> p ∈ m_cueFilesScanned s \/ In p (map t_filepath media))
    /\ (forall t later onlyModified',
          In t media ->
          m_cueFilesScanned s' ⊆ m_cueFilesScanned later ->
          readFile fs loader playlists db worker now (t_filepath t) onlyModified' later
          = Ok (polled later)).
Proof.
  intros Hread Hnew.
  assert (Hgen : exists media,
             (media = readPlaylistTracks fs playlists cue false
              \/ (m_existingCueTracks s !! cue = Some media /\ onlyModified = true))
             /\ (forall p, p ∈ m_cueFilesScanned s'
                           <-> p ∈ m_cueFilesScanned s \/ In p (map t_filepath media))).
  { revert Hread. unfold readCue. cbv zeta.
    destruct (m_existingCueTracks s !! cue) as [[|front rest]|] eqn:Hcue; [discriminate| |].
    - destruct (_ || _)%bool eqn:Hcond; intros [= <-].
      + exists (readPlaylistTracks fs playlists cue false). split; [now left|].
        unfold updateExistingCueTracks. cbv zeta. intros p.
        rewrite (fold_cue_files _ _ _); [reflexivity|].
        intros st t.
        transitivity ({[t_filepath (setTrackProps fs now st
                                      (adoptId (byUniqueFilepath (front :: rest)) t))]}
                        ∪ m_cueFilesScanned st); [reflexivity|].
        rewrite setTrackProps_filepath.
        now destruct (adoptId_fields (byUniqueFilepath (front :: rest)) t) as [-> _].
      + exists (front :: rest). split.
        * right. split; [reflexivity|]. apply orb_false_iff in Hcond as [_ Hom].
          now apply negb_false_iff in Hom.
        * intros p.
          apply (fold_cue_files
                   (fun s track => set_cueFilesScanned
                                     ({[t_filepath track]} ∪ m_cueFilesScanned s) s)
                   (front :: rest) s).
          intros st t. reflexivity.
    - unfold addNewCueTracks. rewrite (Hnew eq_refl). intros [= <-].
      exists (readPlaylistTracks fs playlists cue false). split; [now left|].
      intros p. rewrite (fold_cue_files _ _ _); [reflexivity|].
      intros st t.
      transitivity ({[t_filepath (setTrackProps fs now st t)]} ∪ m_cueFilesScanned st);
        [reflexivity|].
      now rewrite setTrackProps_filepath. }
  destruct Hgen as (media & Hmedia & Hset). exists media.
  split; [exact Hmedia|]. split; [exact Hset|].
  intros t later om Ht Hsub. apply readFile_skips_cue_media.
  apply Hsub, Hset. right. now apply in_map.
Qed.

Lemma byUniqueFilepath_fold tracks (m : gmap string Track) k :
  fold_left (fun m t => emplace (uniqueFilepath t) t m) tracks m !! k
  = match m !! k with
    | Some t => Some t
    | None => List.find (fun t => String.eqb (uniqueFilepath t) k) tracks
    end.
Proof.
  revert m. induction tracks as [|t tracks IH]; intros m; cbn [fold_left List.find].
  - now destruct (m !! k).
  - rewrite IH, emplace_lookup. destruct (m !! k); [reflexivity|].
    destruct (String.eqb_spec (uniqueFilepath t) k) as [->|Hne].
    + now rewrite decide_True.
    + now rewrite decide_False.
Qed.

Lemma adoptId_id tracks cueTrack :
  t_id (adoptId (byUniqueFilepath tracks) cueTrack)
  = match List.find (fun t => String.eqb (uniqueFilepath t) (uniqueFilepath cueTrack))
                    tracks with
    | Some known => t_id known
    | None => t_id cueTrack
    end.
Proof.
  unfold adoptId, byUniqueFilepath. rewrite byUniqueFilepath_fold, lookup_empty.
  now destruct (List.find _ tracks).
Qed.

(** X12. [updateExistingCueTracks] queues one update per track of the
    re-read sheet, in the sheet's order, and no insert: each keeps the path
    the sheet gives it, is enabled, and has the id of the first known track
    with the same unique path, or the id the parser gave it when no known
    track has that key. *)
Theorem updateExistingCueTracks_adopts_ids tracks cue s :
  let s' := updateExistingCueTracks fs playlists now tracks cue s in
  m_tracksToStore s' = m_tracksToStore s
  /\ exists updated,
       m_tracksToUpdate s' = m_tracksToUpdate s ++ updated
       /\ Forall2 (fun cueTrack u =>
                     t_filepath u = t_filepath cueTrack
                     /\ t_isEnabled u = true
                     /\ t_id u
                        = match List.find
                                  (fun t => String.eqb (uniqueFilepath t)
                                                       (uniqueFilepath cueTrack))
                                  tracks with
                          | Some known => t_id known
                          | None => t_id cueTrack
                          end)
                  (readPlaylistTracks fs playlists cue false) updated.
Proof.
  unfold updateExistingCueTracks. cbv zeta. split.
  - now rewrite (fold_keeps m_tracksToStore).
  - exists (map (fun cueTrack => setTrackProps fs now s
                                   (adoptId (byUniqueFilepath tracks) cueTrack))
                (readPlaylistTracks fs playlists cue false)).
    split.
    + rewrite (fold_update_queue
                 (fun st cueTrack => setTrackProps fs now st
                                       (adoptId (byUniqueFilepath tracks) cueTrack)));
        [reflexivity|reflexivity|reflexivity|].
      intros st st' t Hl. unfold setTrackProps. now apply setTrackPropsAt_library.
    + induction (readPlaylistTracks fs playlists cue false) as [|c l IH];
        cbn [map]; constructor; [|exact IH].
      unfold setTrackProps.
      destruct (setTrackPropsAt_fields fs now s (adoptId (byUniqueFilepath tracks) c)
                  (t_filepath (adoptId (byUniqueFilepath tracks) c)))
        as (Hid & Hpath & _ & Hen & _).
      rewrite Hid, Hpath, Hen, adoptId_id.
      now destruct (adoptId_fields (byUniqueFilepath tracks) c) as [-> _].
Qed.

(** X13. [setTrackProps(track, file)] reads the file properties before it
    sets the path: a zero size or modified time is filled from the path the
    track had, not from [file], a stored one is kept, and the added time is
    only set when it was zero. The track ends enabled, at [file], with its
    id and tags, and with the hash of these fields. *)
Theorem setTrackPropsAt_reads_old_path s track file :
  let props := setTrackPropsAt fs now s track file in
  t_filepath props = file
  /\ t_modifiedTime props
     = (if Z.eqb (t_modifiedTime track) 0
        then lastModifiedOf fs (t_filepath track) else t_modifiedTime track)
  /\ t_fileSize props
     = (if Z.eqb (t_fileSize track) 0
        then u64 (fs_size fs (t_filepath track)) else t_fileSize track)
  /\ t_addedTime props
     = (if Z.eqb (t_addedTime track) 0 then u64 now else t_addedTime track)
  /\ t_libraryId props
     = (if Z.leb 0 (lib_id (m_currentLibrary s))
        then lib_id (m_currentLibrary s) else t_libraryId track)
  /\ t_id props = t_id track
  /\ t_isEnabled props = true.
Proof.
  unfold setTrackPropsAt, readFileProperties. cbv zeta.
  destruct (Z.eqb (t_addedTime track) 0), (Z.eqb (t_modifiedTime track) 0) eqn:Hm,
    (Z.eqb (t_fileSize track) 0) eqn:Hs, (Z.leb 0 (lib_id (m_currentLibrary s)));
    cbn; rewrite ?Hm, ?Hs; cbn; rewrite ?Hs; repeat split; reflexivity.
Qed.

End CueFacts.

(** ** The closing loop over the missing files *)

Lemma demote_not_listed t : stillListed (demote t) = false.
Proof. reflexivity. Qed.

Lemma filter_none {A} (p : A -> bool) l :
  (forall x, In x l -> p x = false) -> List.filter p l = [].
Proof.
  induction l as [|x l IH]; intros Hall; simpl; [reflexivity|].
  rewrite (Hall x) by now left. apply IH. intros y Hy. apply Hall. now right.
Qed.

Lemma demoted_values (m : gmap string Track) t :
  In t (map snd (map_to_list ((fun t => if stillListed t then demote t else t) <$> m))) ->
  stillListed t = false.
Proof.
  intros Hin. apply in_map_iff in Hin as ([k t'] & <- & Hin).
  apply list_elem_of_In, elem_of_map_to_list in Hin. rewrite lookup_fmap in Hin.
  destruct (m !! k) as [t0|]; [|discriminate]. injection Hin as <-.
  destruct (stillListed t0) eqn:Hl; [apply demote_not_listed|exact Hl].
Qed.

(** X14. The closing loop of [getAndSaveAllTracks] settles the missing-file
    index: afterwards no track in it is in a library or enabled, it has the
    same keys, every track keeps its id and path, and running the loop once
    more changes nothing and queues nothing. *)
Theorem demoteMissing_settles s :
  noneToDemote (demoteMissing s) = true
  /\ (forall k, option_map (fun t => (t_id t, t_filepath t))
                           (m_missingFiles (demoteMissing s) !! k)
                = option_map (fun t => (t_id t, t_filepath t)) (m_missingFiles s !! k))
  /\ demoteMissing (demoteMissing s) = demoteMissing s.
Proof.
  split; [|split].
  - unfold noneToDemote. apply forallb_forall. intros t Ht.
    apply negb_true_iff. revert Ht. unfold demoteMissing. cbv zeta.
    apply demoted_values.
  - intros k. unfold demoteMissing. cbv zeta.
    change (option_map (fun t => (t_id t, t_filepath t))
              (((fun t => if stillListed t then demote t else t) <$> m_missingFiles s) !! k)
            = option_map (fun t => (t_id t, t_filepath t)) (m_missingFiles s !! k)).
    rewrite lookup_fmap. destruct (m_missingFiles s !! k) as [t|]; [|reflexivity].
    cbn. now destruct (stillListed t).
  - unfold demoteMissing at 1. cbv zeta.
    rewrite (filter_none stillListed
               (map snd (map_to_list (m_missingFiles (demoteMissing s))))).
    + assert (Hmap : (fun t => if stillListed t then demote t else t)
                       <$> m_missingFiles (demoteMissing s)
                     = m_missingFiles (demoteMissing s)).
      { apply map_eq. intros k. rewrite lookup_fmap.
        destruct (m_missingFiles (demoteMissing s) !! k) as [t|] eqn:Hk; [|reflexivity].
        cbn. assert (Hl : stillListed t = false).
        { apply (demoted_values (m_missingFiles s)). apply in_map_iff.
          exists (k, t). split; [reflexivity|].
          apply list_elem_of_In, elem_of_map_to_list. exact Hk. }
        now rewrite Hl. }
      rewrite Hmap. cbn [map]. rewrite app_nil_r. now destruct (demoteMissing s).
    + intros t. unfold demoteMissing. cbv zeta. apply demoted_values.
Qed.

(** ** Reading the tracks of a file *)

Section ReadFacts.
Context `{TrackOps}.
Context (fs : FileSystem) (loader : AudioLoader).

#[local] Set Default Proof Using "Type".

Lemma readSubsongs_length rd source mk :
  (List.length (readSubsongs rd source mk) <= Z.to_nat (rd_subsongCount rd source))%nat.
Proof.
  unfold readSubsongs.
  rewrite <- (length_seqZ 0 (rd_subsongCount rd source)).
  induction (seqZ 0 (rd_subsongCount rd source)) as [|i l IH]; cbn [flat_map]; [apply Nat.le_refl|].
  rewrite length_app. cbn [List.length]. destruct (rd_readTrack rd _ _); cbn [List.length]; lia.
Qed.

Lemma readSubsongs_hashed rd source mk t :
  In t (readSubsongs rd source mk) ->
  exists subIndex read,
    0 <= subIndex < rd_subsongCount rd source
    /\ rd_readTrack rd (t_filepath (mk subIndex)) (mk subIndex) = Some read
    /\ t = generateHash read.
Proof.
  unfold readSubsongs. intros Hin. apply in_flat_map in Hin as (i & Hi & Ht).
  apply list_elem_of_In, elem_of_seqZ in Hi.
  destruct (rd_readTrack rd _ _) as [read|] eqn:Hread; [|destruct Ht].
  destruct Ht as [<-|[]]. exists i, read. split; [lia|]. now split.
Qed.

(** X15. What [readTracks] gives for a file that is not an archive: no
    track when no reader takes the file, the file cannot be opened, the
    reader's [init] fails, or it counts no subsong; otherwise at most one
    track per subsong, each a track the reader filled in for a subsong
    index below the count, starting from the file's path and size, and
    hashed afterwards. *)
Theorem readTracks_plain_file filepath :
  isArchive loader filepath = false ->
  match readerForFile loader filepath with
  | None => readTracks fs loader filepath = []
  | Some tagReader =>
      (fs_canOpen fs filepath = false -> readTracks fs loader filepath = [])
      /\ (rd_init tagReader filepath = false -> readTracks fs loader filepath = [])
      /\ (rd_subsongCount tagReader filepath <= 0 -> readTracks fs loader filepath = [])
      /\ (List.length (readTracks fs loader filepath)
          <= Z.to_nat (rd_subsongCount tagReader filepath))%nat
      /\ forall t, In t (readTracks fs loader filepath) ->
           exists subIndex read,
             0 <= subIndex < rd_subsongCount tagReader filepath
             /\ rd_readTrack tagReader filepath
                  (setFileSize (newTrack filepath subIndex) (u64 (fs_size fs filepath)))
                = Some read
             /\ t = generateHash read
  end.
Proof.
  intros Harch. unfold readTracks. rewrite Harch.
  destruct (readerForFile loader filepath) as [rd|]; [|reflexivity].
  split; [now intros ->|]. split; [intros ->; now destruct (fs_canOpen fs filepath)|].
  split; [|split].
  - intros Hcount. destruct (fs_canOpen fs filepath), (rd_init rd filepath);
      try reflexivity. cbn [negb]. unfold readSubsongs.
    now rewrite seqZ_nil by lia.
  - destruct (fs_canOpen fs filepath), (rd_init rd filepath); cbn [negb List.length];
      try lia. apply readSubsongs_length.
  - intros t. destruct (fs_canOpen fs filepath), (rd_init rd filepath); cbn [negb];
      try (now intros []). intros Hin.
    apply readSubsongs_hashed in Hin as (i & read & Hi & Hread & ->).
    exists i, read. split; [exact Hi|]. split; [exact Hread|reflexivity].
Qed.

End ReadFacts.

(** ** The enumerator and the order of its inputs *)

Lemma sortFiles_perm_invariant files files' :
  Permutation files files' -> sortFiles files = sortFiles files'.
Proof.
  intros Hp. unfold sortFiles. now rewrite (sortByPath_perm_invariant files files').
Qed.

(** X16. The File Enumerator does not depend on the order its inputs are
    given in, and enumerating inputs together is enumerating them apart and
    sorting the joined lists. *)
Theorem getFiles_order_independent fs wild urls urls' restrict exclude playlistExts :
  Permutation urls urls' ->
  getFiles fs wild urls restrict exclude playlistExts
  = getFiles fs wild urls' restrict exclude playlistExts
  /\ forall more,
       getFiles fs wild (urls ++ more) restrict exclude playlistExts
       = sortFiles (getFiles fs wild urls' restrict exclude playlistExts
                    ++ getFiles fs wild more restrict exclude playlistExts).
Proof.
  intros Hp. unfold getFiles. cbv zeta.
  set (nameFilters := fold_left (fun acc ext => removeAll ext acc) exclude restrict).
  assert (Hflat : Permutation (flat_map (filesOfUrl fs wild nameFilters playlistExts) urls)
                    (flat_map (filesOfUrl fs wild nameFilters playlistExts) urls')).
  { clear -Hp. induction Hp; cbn [flat_map].
    - constructor.
    - now apply Permutation_app_head.
    - rewrite !app_assoc. apply Permutation_app_tail, Permutation_app_comm.
    - etransitivity; eassumption. }
  split; [now apply sortFiles_perm_invariant|].
  intros more. rewrite flat_map_app. apply sortFiles_perm_invariant.
  apply Permutation_app.
  - etransitivity; [exact Hflat|apply sortFiles_perm].
  - apply sortFiles_perm.
Qed.

(** ** Scanning a library root *)

Lemma storeCalls_app l1 l2 : storeCalls (l1 ++ l2) = storeCalls l1 ++ storeCalls l2.
Proof. apply List.filter_app. Qed.

Section LibraryScans.
Context `{TrackOps}.
Context (fs : FileSystem) (loader : AudioLoader) (playlists : PlaylistLoader)
        (db : TrackDatabase) (worker : Worker) (settings : FySettings).
Context (wild : list string -> list string) (subdirs : string -> list string) (now : Z).

#[local] Set Default Proof Using "Type".

Lemma getAndSaveAllTracks_keeps_watchers path tracks onlyModified s finished s' :
  getAndSaveAllTracks fs loader playlists db worker settings wild now
    path tracks onlyModified s = Ok (finished, s') ->
  m_watchers s' = m_watchers s /\ m_monitor s' = m_monitor s
  /\ m_currentLibrary s' = m_currentLibrary s.
Proof.
  unfold getAndSaveAllTracks. cbv zeta.
  destruct (scanFilesLoop _ _ _ _ _ _ _ _ _) as [[fin sl]|] eqn:Hloop; [|discriminate].
  apply scanFilesLoop_frame in Hloop as (Hframe & _).
  pose proof (populateExistingTracks_keeps fs tracks true s) as Hpop.
  cbv zeta in Hpop. injection Hpop as P1 P2 P3 P4 P5 P6 P7 P8 P9 P10 P11.
  simpl. injection Hframe as E1 E2 E3 E4 E5 E6 E7 E8 E9. simpl in *.
  destruct fin; simpl; intros [= <- <-].
  - pose proof (saveAllTracks_frame db sl) as Hs. unfold readFrame in Hs.
    injection Hs as _ _ _ _ -> _ -> -> _ _.
    repeat split; congruence.
  - repeat split; congruence.
Qed.

Lemma finishRun_runFields s :
  runFields (finishRun worker s) = runFields s
  /\ m_watchers (finishRun worker s) = m_watchers s
  /\ m_monitor (finishRun worker s) = m_monitor s
  /\ lib_id (m_currentLibrary (finishRun worker s)) = lib_id (m_currentLibrary s).
Proof. unfold finishRun. cbv zeta. now destruct (RunState_eqb _ Paused). Qed.

Lemma watchIfMonitoring_keeps library s :
  m_monitor (watchIfMonitoring subdirs library s) = m_monitor s
  /\ m_currentLibrary (watchIfMonitoring subdirs library s) = m_currentLibrary s.
Proof. unfold watchIfMonitoring. now destruct (_ && _)%bool. Qed.

(** X17. A library whose id is negative or whose root does not exist is
    not scanned: [scanLibrary] reports the library as scanning and then as
    pending (when paused) or as monitoring or idle followed by [finished],
    and does nothing else; nothing reaches the store, and the per-run
    fields and the watchers are left as they were, not cleaned. *)
Theorem scanLibrary_skipped_root library tracks onlyModified s :
  lib_id library < 0 \/ fs_exists fs (lib_path library) = false ->
  exists s',
    scanLibrary fs loader playlists db worker settings wild subdirs now
      library tracks onlyModified s = Ok s'
    /\ m_log s'
       = m_log s
         ++ StatusChanged (setStatus library StatusScanning)
            :: (if RunState_eqb (observedState worker (m_polls s)) Paused
                then [StatusChanged (setStatus library StatusPending)]
                else [StatusChanged
                        (setStatus library
                           (if m_monitor s then StatusMonitoring else StatusIdle));
                      Finished])
    /\ runFields s' = runFields s
    /\ m_watchers s' = m_watchers s.
Proof.
  intros Hskip.
  assert (Hcond : (Z.leb 0 (lib_id (m_currentLibrary (startScan library s)))
                   && fs_exists fs (lib_path (m_currentLibrary (startScan library s))))%bool
                  = false).
  { change ((Z.leb 0 (lib_id library) && fs_exists fs (lib_path library))%bool = false).
    destruct Hskip as [Hid| ->]; [|apply andb_false_r].
    now rewrite (proj2 (Z.leb_gt 0 (lib_id library)) Hid). }
  unfold scanLibrary. cbv zeta. rewrite Hcond. cbn [bind].
  eexists. split; [reflexivity|].
  unfold finishRun, startScan, changeLibraryStatus. cbv zeta.
  change (m_polls (logEvent _ _)) with (m_polls s).
  destruct (RunState_eqb (observedState worker (m_polls s)) Paused); cbn;
    rewrite <- ?app_assoc; repeat split; reflexivity.
Qed.

(** X18. When the root is there, [scanLibrary] leaves no per-run state
    behind, whether the scan finished or was stopped: both queues, the five
    indexes, the scanned paths and the file count are empty afterwards. The
    monitor flag is kept, the library scanned is the current one, a watcher
    exists for it when monitoring is on, and other watchers are untouched. *)
Theorem scanLibrary_cleans_up library tracks onlyModified s s' :
  0 <= lib_id library ->
  fs_exists fs (lib_path library) = true ->
  scanLibrary fs loader playlists db worker settings wild subdirs now
    library tracks onlyModified s = Ok s' ->
  runFields s' = ([], [], ∅, ∅, ∅, ∅, ∅, ∅, ∅, ∅, 0%nat)
  /\ m_monitor s' = m_monitor s
  /\ lib_id (m_currentLibrary s') = lib_id library
  /\ (m_monitor s = true -> is_Some (m_watchers s' !! lib_id library))
  /\ (forall id, id <> lib_id library \/ m_monitor s = false ->
                 m_watchers s' !! id = m_watchers s !! id).
Proof.
  intros Hid Hex. unfold scanLibrary. cbv zeta.
  change (lib_id (m_currentLibrary (startScan library s))) with (lib_id library).
  change (lib_path (m_currentLibrary (startScan library s))) with (lib_path library).
  rewrite Hex, (proj2 (Z.leb_le 0 (lib_id library)) Hid). cbn [andb bind].
  destruct (getAndSaveAllTracks _ _ _ _ _ _ _ _ _ _ _ _) as [[fin sg]|] eqn:Hrun;
    [|discriminate].
  cbn [bind snd]. intros [= <-].
  apply getAndSaveAllTracks_keeps_watchers in Hrun as (Hw & Hm & Hl).
  destruct (finishRun_runFields (cleanupScan sg)) as (-> & -> & -> & ->).
  change (m_watchers (cleanupScan sg)) with (m_watchers sg).
  change (m_monitor (cleanupScan sg)) with (m_monitor sg).
  change (m_currentLibrary (cleanupScan sg)) with (m_currentLibrary sg).
  rewrite Hw, Hm, Hl.
  destruct (watchIfMonitoring_keeps library (startScan library s)) as [-> ->].
  split; [reflexivity|]. split; [reflexivity|]. split; [reflexivity|].
  unfold watchIfMonitoring, addWatcher.
  change (m_monitor (startScan library s)) with (m_monitor s).
  change (m_watchers (startScan library s)) with (m_watchers s).
  split.
  - intros ->. cbn [andb].
    destruct (bool_decide (is_Some (m_watchers s !! lib_id library))) eqn:Hwatched;
      cbn [negb].
    + now apply bool_decide_eq_true_1 in Hwatched.
    + cbn. rewrite lookup_insert_eq. eauto.
  - intros id Hother. destruct (m_monitor s) eqn:Hmon; cbn [andb]; [|reflexivity].
    destruct Hother as [Hne|Habs]; [|discriminate].
    destruct (negb _); [|reflexivity]. cbn. now rewrite lookup_insert_ne.
Qed.

(** X19. A directory rescan of the library's own root is the modified-only
    library scan: with the root there and no watcher to add (monitoring off,
    or the library watched already), [scanLibrary] under [onlyModified] and
    [scanLibraryDirectory] on the library's path do the same. *)
Theorem scanLibraryDirectory_of_root library tracks s :
  0 <= lib_id library ->
  fs_exists fs (lib_path library) = true ->
  m_monitor s = false \/ is_Some (m_watchers s !! lib_id library) ->
  scanLibrary fs loader playlists db worker settings wild subdirs now
    library tracks true s
  = scanLibraryDirectory fs loader playlists db worker settings wild now
      library (lib_path library) tracks s.
Proof.
  intros Hid Hex Hwatch. unfold scanLibrary, scanLibraryDirectory. cbv zeta.
  change (lib_id (m_currentLibrary (startScan library s))) with (lib_id library).
  change (lib_path (m_currentLibrary (startScan library s))) with (lib_path library).
  rewrite Hex, (proj2 (Z.leb_le 0 (lib_id library)) Hid). cbn [andb].
  assert (Hsame : watchIfMonitoring subdirs library (startScan library s)
                  = startScan library s).
  { unfold watchIfMonitoring.
    change (m_monitor (startScan library s)) with (m_monitor s).
    change (m_watchers (startScan library s)) with (m_watchers s).
    destruct Hwatch as [-> |Hw]; [reflexivity|].
    rewrite (bool_decide_eq_true_2 _ Hw). now rewrite andb_false_r. }
  rewrite Hsame.
  now destruct (getAndSaveAllTracks _ _ _ _ _ _ _ _ _ _ _ _) as [[fin sg]|].
Qed.

End LibraryScans.

(** ** The other entry points *)

Section EntryFacts.
Context `{TrackOps}.
Context (fs : FileSystem) (loader : AudioLoader) (playlists : PlaylistLoader)
        (db : TrackDatabase) (worker : Worker).
Context (restrictTypes excludeTypes playlistExts : list string).
Context (wild : list string -> list string) (subdirs : string -> list string) (now : Z).

#[local] Set Default Proof Using "Type".

Lemma finishScan_storeCalls s :
  storeCalls (m_log (finishScan worker s)) = storeCalls (m_log s).
Proof.
  unfold finishScan. cbv zeta. destruct (negb _); [|reflexivity].
  cbn. rewrite !storeCalls_app. cbn. now rewrite !app_nil_r.
Qed.

Lemma logEvent_storeCalls e s :
  isStoreCall e = false -> storeCalls (m_log (logEvent e s)) = storeCalls (m_log s).
Proof.
  intros He. cbn. rewrite storeCalls_app. cbn. rewrite He. apply app_nil_r.
Qed.





Lemma find_some_In {A} (p : A -> bool) l x :
  List.find p l = Some x -> In x l /\ p x = true.
Proof. apply List.find_some. Qed.


Lemma readPlaylistOf_index s s' filepath :
  m_trackPaths s = m_trackPaths s' ->
  readPlaylistOf fs playlists s filepath = readPlaylistOf fs playlists s' filepath.
Proof.
  intros Hidx. unfold readPlaylistOf. apply flat_map_ext. intros p.
  unfold resolvePlaylistTrack. now rewrite Hidx.
Qed.





Lemma populateExistingTracks_state tracks includeMissing st s :
  populateExistingTracks fs tracks includeMissing (set_state st s)
  = set_state st (populateExistingTracks fs tracks includeMissing s).
Proof.
  unfold populateExistingTracks. revert s.
  induction tracks as [|t l IH]; intros s; cbn [fold_left]; [reflexivity|].
  rewrite <- IH. f_equal. unfold populateExistingTrack, markMissing.
  destruct includeMissing, (hasCue t), (isInArchive t),
    (fs_exists fs (cuePathKey t)), (fs_exists fs (t_filepath t)),
    (fs_exists fs (archivePath t)); reflexivity.
Qed.

(** The loop of [scanPlaylist] over the urls keeps the path index and the
    log but for the playlist reads, and collects the playlists in order. *)
Lemma scanPlaylist_loop urls s scanned :
  let step := fun (acc : ScanState * list Track) url =>
                let '(s, tracksScanned) := acc in
                let playlistTracks := readPlaylistOf fs playlists s (toLocalFile url) in
                let s := logEvent (ReadPlaylistFile (toLocalFile url)) s in
                let s := fold_left (fun s track =>
                                      set_filesScanned
                                        ({[t_filepath track]} ∪ m_filesScanned s) s)
                                   playlistTracks s in
                (s, tracksScanned ++ playlistTracks) in
  let r := fold_left step urls (s, scanned) in
  m_trackPaths (fst r) = m_trackPaths s
  /\ storeCalls (m_log (fst r)) = storeCalls (m_log s)
  /\ m_polls (fst r) = m_polls s
  /\ snd r = scanned
             ++ flat_map (fun url => readPlaylistOf fs playlists s (toLocalFile url)) urls.
Proof.
  cbv zeta. revert s scanned. induction urls as [|url urls IH]; intros s scanned;
    cbn [fold_left flat_map fst snd].
  - now rewrite app_nil_r.
  - match goal with
    | |- context [fold_left ?f (readPlaylistOf _ _ _ _) ?s0] =>
        assert (Hin : m_trackPaths (fold_left f (readPlaylistOf fs playlists s
                                                   (toLocalFile url)) s0)
                      = m_trackPaths s
                      /\ m_log (fold_left f (readPlaylistOf fs playlists s
                                               (toLocalFile url)) s0)
                         = m_log s ++ [ReadPlaylistFile (toLocalFile url)]
                      /\ m_polls (fold_left f (readPlaylistOf fs playlists s
                                                 (toLocalFile url)) s0)
                         = m_polls s)
    end.
    { split; [|split].
      - rewrite (fold_keeps m_trackPaths); reflexivity.
      - rewrite (fold_keeps m_log); reflexivity.
      - rewrite (fold_keeps m_polls); reflexivity. }
    destruct Hin as (Hidx & Hlog & Hpolls).
    match goal with
    | |- context [fold_left _ urls (?s1, ?sc)] => destruct (IH s1 sc) as (E1 & E2 & E3 & E4)
    end.
    rewrite E1, E2, E3, E4, Hidx, Hlog, Hpolls. rewrite storeCalls_app. cbn [storeCalls List.filter isStoreCall].
    rewrite app_nil_r, <- app_assoc. repeat split. do 2 f_equal.
    apply flat_map_ext. intros u. now apply readPlaylistOf_index.
Qed.

(** X23. [scanPlaylist] looks at [mayRun] once, before the first playlist.
    When it may run, the tracks of all the given playlists, each resolved
    against the library tracks' paths, are handed to the store in one
    [storeTracks] call in the order of the urls, and [playlistLoaded]
    carries the list as the store left it; with no track found, or when it
    may not run, nothing is stored and no signal is emitted. *)
Theorem scanPlaylist_stores_playlists libraryTracks urls s :
  let indexed := populateExistingTracks fs libraryTracks false s in
  let scanned :=
    if mayRun worker s
    then flat_map (fun url => readPlaylistOf fs playlists indexed (toLocalFile url)) urls
    else [] in
  storeCalls (m_log (fst (scanPlaylist fs playlists db worker libraryTracks urls s)))
  = storeCalls (m_log s) ++ (if isEmpty scanned then [] else [DbStoreTracks scanned])
  /\ snd (scanPlaylist fs playlists db worker libraryTracks urls s)
     = (if isEmpty scanned then [] else [PlaylistLoaded (storedTracks db scanned)]).
Proof.
  cbv zeta. unfold scanPlaylist. cbv zeta.
  pose proof (populateExistingTracks_keeps fs libraryTracks false (set_state Running s))
    as Hpop. cbv zeta in Hpop. injection Hpop as _ _ _ _ _ _ _ _ _ Hpl Hpp.
  set (s0 := reportProgress (populateExistingTracks fs libraryTracks false
                               (set_state Running s))).
  assert (Hs0 : storeCalls (m_log (polled s0)) = storeCalls (m_log s)
                /\ mayRun worker s0 = mayRun worker s).
  { split.
    - unfold s0, reportProgress. change (m_log (polled ?x)) with (m_log x).
      rewrite logEvent_storeCalls by reflexivity. now rewrite Hpl.
    - unfold mayRun, s0, reportProgress. cbn [m_polls logEvent set_log]. now rewrite Hpp. }
  destruct Hs0 as (Hlog0 & ->).
  destruct (mayRun worker s); cbn [negb].
  - pose proof (scanPlaylist_loop urls (polled s0) []) as Hloop. cbv zeta in Hloop.
    destruct Hloop as (_ & Hlog & _ & Hscanned).
    destruct (fold_left _ urls (polled s0, [])) as [s1 scanned]. cbn [fst snd app] in *.
    assert (Hsame : scanned
                    = flat_map (fun url => readPlaylistOf fs playlists
                                             (populateExistingTracks fs libraryTracks false s)
                                             (toLocalFile url)) urls).
    { rewrite Hscanned. apply flat_map_ext. intros u. apply readPlaylistOf_index.
      unfold s0. now rewrite populateExistingTracks_state. }
    rewrite <- Hsame. destruct scanned as [|t scanned]; cbn [isEmpty negb fst snd].
    + rewrite finishScan_storeCalls, Hlog, Hlog0. now rewrite app_nil_r.
    + rewrite finishScan_storeCalls. cbn. rewrite storeCalls_app, Hlog, Hlog0. auto.
  - cbn [fst snd isEmpty]. rewrite finishScan_storeCalls, Hlog0. now rewrite app_nil_r.
Qed.

(** X24. Turning the watchers off drops every watcher and reports as idle
    exactly the libraries that were given as monitoring, in the order of
    the map; the monitor flag, which [setMonitorLibraries] alone sets, and
    the per-run fields are not touched. *)
Theorem setupWatchers_disable libraries s :
  let s' := setupWatchers subdirs libraries false s in
  m_watchers s' = ∅
  /\ m_log s'
     = m_log s
       ++ map (fun l => StatusChanged (setStatus l StatusIdle))
              (List.filter (fun l => match lib_status l with
                                     | StatusMonitoring => true
                                     | _ => false
                                     end) libraries)
  /\ m_monitor s' = m_monitor s
  /\ runFields s' = runFields s.
Proof.
  cbv zeta. unfold setupWatchers. cbn [negb].
  split; [reflexivity|].
  change (m_log (set_watchers ∅ ?x)) with (m_log x).
  change (m_monitor (set_watchers ∅ ?x)) with (m_monitor x).
  change (runFields (set_watchers ∅ ?x)) with (runFields x).
  revert s. induction libraries as [|l libraries IH]; intros s;
    cbn [fold_left List.filter map].
  - now rewrite app_nil_r.
  - destruct (IH (setupWatcher subdirs false s l)) as (-> & -> & ->).
    unfold setupWatcher. cbn [negb].
    destruct (lib_status l); cbn [map]; repeat split; try reflexivity.
    cbn [logEvent set_log m_log]. now rewrite <- app_assoc.
Qed.

Lemma setupWatcher_enable_step s l :
  let s1 := setupWatcher subdirs true s l in
  is_Some (m_watchers s1 !! lib_id l)
  /\ (forall id, is_Some (m_watchers s !! id) -> m_watchers s1 !! id = m_watchers s !! id)
  /\ (forall id, is_Some (m_watchers s1 !! id) ->
                 is_Some (m_watchers s !! id) \/ id = lib_id l).
Proof.
  cbv zeta. unfold setupWatcher. cbn [negb].
  destruct (bool_decide (is_Some (m_watchers s !! lib_id l))) eqn:Hw; cbn [negb].
  - apply bool_decide_eq_true_1 in Hw. auto.
  - apply bool_decide_eq_false_1 in Hw. unfold addWatcher. cbn. split; [|split].
    + rewrite lookup_insert_eq. eauto.
    + intros id Hid. destruct (decide (id = lib_id l)) as [->|Hne]; [contradiction|].
      now rewrite lookup_insert_ne.
    + intros id. destruct (decide (id = lib_id l)) as [->|Hne]; [now right|].
      rewrite lookup_insert_ne by auto. now left.
Qed.

Lemma setupWatcher_watched libraries s :
  (forall l, In l libraries -> is_Some (m_watchers s !! lib_id l)) ->
  fold_left (setupWatcher subdirs true) libraries s = s.
Proof.
  induction libraries as [|l libraries IH]; intros Hall; cbn [fold_left]; [reflexivity|].
  assert (Hstep : setupWatcher subdirs true s l = s).
  { unfold setupWatcher. cbn [negb].
    now rewrite (bool_decide_eq_true_2 _ (Hall l (or_introl eq_refl))). }
  rewrite Hstep. apply IH. intros l' Hl'. apply Hall. now right.
Qed.

(** X25. Turning the watchers on gives every library of the map a watcher
    and keeps the watchers that were there; a watcher is only ever added
    for a library of the map. Doing it again with the same map changes
    nothing: no watcher is added twice and no status is reported again. *)
Theorem setupWatchers_enable libraries s :
  let s' := setupWatchers subdirs libraries true s in
  (forall l, In l libraries -> is_Some (m_watchers s' !! lib_id l))
  /\ (forall id, is_Some (m_watchers s !! id) -> m_watchers s' !! id = m_watchers s !! id)
  /\ (forall id, is_Some (m_watchers s' !! id) ->
                 is_Some (m_watchers s !! id) \/ exists l, In l libraries /\ lib_id l = id)
  /\ setupWatchers subdirs libraries true s' = s'.
Proof.
  cbv zeta. unfold setupWatchers. cbn [negb].
  assert (Hfold : (forall l, In l libraries ->
                     is_Some (m_watchers (fold_left (setupWatcher subdirs true) libraries s)
                                !! lib_id l))
                  /\ (forall id, is_Some (m_watchers s !! id) ->
                        m_watchers (fold_left (setupWatcher subdirs true) libraries s) !! id
                        = m_watchers s !! id)
                  /\ (forall id,
                        is_Some (m_watchers (fold_left (setupWatcher subdirs true) libraries s)
                                   !! id) ->
                        is_Some (m_watchers s !! id)
                        \/ exists l, In l libraries /\ lib_id l = id)).
  { revert s. induction libraries as [|l libraries IH]; intros s; cbn [fold_left].
    - split; [intros l []|]. split; [reflexivity|]. intros id Hid. now left.
    - destruct (setupWatcher_enable_step s l) as (Hl & Hkeep & Hnew).
      destruct (IH (setupWatcher subdirs true s l)) as (Hall & Hkeep2 & Hnew2).
      split; [|split].
      + intros l' [<-|Hl']; [|now apply Hall]. rewrite Hkeep2 by exact Hl. exact Hl.
      + intros id Hid. rewrite Hkeep2; [now apply Hkeep|].
        rewrite Hkeep by exact Hid. exact Hid.
      + intros id Hid. apply Hnew2 in Hid as [Hid|(l' & Hl' & <-)].
        * apply Hnew in Hid as [Hid| ->]; [now left|]. right. exists l. split; [now left|auto].
        * right. exists l'. split; [now right|reflexivity]. }
  destruct Hfold as (Hall & Hkeep & Hnew).
  split; [exact Hall|]. split; [exact Hkeep|]. split; [exact Hnew|].
  now apply setupWatcher_watched.
Qed.

End EntryFacts.

(** ** The further properties on concrete runs *)

Module FurtherExamples.
Import Fixtures.

Lemma getFiles_directory_filters_witness :
  fs_isDir musicFs "/m" = true
  /\ exists nameFilters,
       (forall e, In e nameFilters
                  <-> In e ["flac"; "cue"]%string /\ ~ In e ["cue"%string])
       /\ getFiles musicFs sameList [mkUrl true "/m"] ["flac"; "cue"]%string
            ["cue"%string] ["m3u"%string]
          = sortFiles (map fst (List.filter (fun info => Z.ltb 0 (snd info))
                                  (fs_dirIterator musicFs
                                     (fs_absoluteFilePath musicFs "/m")
                                     (sameList nameFilters)))).
Proof.
  split; [reflexivity|].
  destruct (getFiles_directory_filters musicFs sameList ["flac"; "cue"]%string
              ["cue"%string] ["m3u"%string] "/m" eq_refl) as (nameFilters & Hf & Hfiles & _).
  exists nameFilters. split; [exact Hf|exact Hfiles].
Defined.

Lemma libraryFiles_default_filters_witness :
  exists nameFilters,
    (forall e, In e nameFilters
               <-> In e (supportedFileExtensions twoFilesLoader) /\ e <> "cue"%string)
    /\ libraryFiles twoFilesFs twoFilesLoader defaults sameList "/m"
       = sortFiles (filesOfUrl twoFilesFs sameList nameFilters [] (mkUrl true "/m")).
Proof.
  exact (libraryFiles_default_filters twoFilesFs twoFilesLoader defaults sameList "/m"
           eq_refl eq_refl).
Defined.

Lemma scanFilesLoop_queues_bounded_witness :
  exists finished s',
    scanFilesLoop (H := plainTrackOps) twoFilesFs twoFilesLoader noPlaylists plainDb
      alwaysRunning 1000 ["/m/a.flac"; "/m/b.flac"]%string true scanning
    = Ok (finished, s')
    /\ queuesBounded s'.
Proof.
  destruct (scanFilesLoop (H := plainTrackOps) twoFilesFs twoFilesLoader noPlaylists plainDb
              alwaysRunning 1000 ["/m/a.flac"; "/m/b.flac"]%string true scanning)
    as [[finished s']|] eqn:Hrun; [|vm_compute in Hrun; discriminate Hrun].
  exists finished, s'. split; [reflexivity|].
  apply (scanFilesLoop_queues_bounded (H := plainTrackOps) twoFilesFs twoFilesLoader
           noPlaylists plainDb alwaysRunning 1000 ["/m/a.flac"; "/m/b.flac"]%string true
           scanning finished s'); [|exact Hrun].
  split; [apply Nat.ltb_lt|apply Nat.leb_le]; vm_compute; reflexivity.
Defined.

Lemma getAndSaveAllTracks_keeps_indexes_witness :
  exists finished s',
    getAndSaveAllTracks (H := plainTrackOps) twoFilesFs twoFilesLoader noPlaylists plainDb
      alwaysRunning defaults sameList 1000 "/m" [keptTrack] true scanning
    = Ok (finished, s')
    /\ m_trackPaths s' = m_trackPaths keptIndexed
    /\ m_currentLibrary s' = m_currentLibrary scanning.
Proof.
  destruct (getAndSaveAllTracks (H := plainTrackOps) twoFilesFs twoFilesLoader noPlaylists
              plainDb alwaysRunning defaults sameList 1000 "/m" [keptTrack] true scanning)
    as [[finished s']|] eqn:Hrun; [|vm_compute in Hrun; discriminate Hrun].
  exists finished, s'. split; [reflexivity|].
  destruct (getAndSaveAllTracks_keeps_indexes (H := plainTrackOps) twoFilesFs twoFilesLoader
              noPlaylists plainDb alwaysRunning 1000 defaults sameList "/m" [keptTrack] true
              scanning finished s' Hrun) as (Hpaths & _ & _ & _ & Hlib & _).
  split; [exact Hpaths|exact Hlib].
Defined.

Lemma getAndSaveAllTracks_progress_witness :
  exists finished s',
    getAndSaveAllTracks (H := plainTrackOps) twoFilesFs twoFilesLoader noPlaylists plainDb
      alwaysRunning defaults sameList 1000 "/m" [keptTrack] true scanning
    = Ok (finished, s')
    /\ m_totalFiles s'
       = List.length (libraryFiles twoFilesFs twoFilesLoader defaults sameList "/m").
Proof.
  destruct (getAndSaveAllTracks (H := plainTrackOps) twoFilesFs twoFilesLoader noPlaylists
              plainDb alwaysRunning defaults sameList 1000 "/m" [keptTrack] true scanning)
    as [[finished s']|] eqn:Hrun; [|vm_compute in Hrun; discriminate Hrun].
  exists finished, s'. split; [reflexivity|].
  now destruct (getAndSaveAllTracks_progress (H := plainTrackOps) twoFilesFs twoFilesLoader
                  noPlaylists plainDb alwaysRunning 1000 defaults sameList "/m" [keptTrack]
                  true scanning finished s' Hrun) as (Htotal & _).
Defined.

Lemma getAndSaveAllTracks_no_fault_witness :
  exists finished s',
    getAndSaveAllTracks (H := plainTrackOps) twoFilesFs twoFilesLoader noPlaylists plainDb
      alwaysRunning defaults sameList 1000 "/m" [keptTrack] true scanning
    = Ok (finished, s').
Proof.
  apply (getAndSaveAllTracks_no_fault (H := plainTrackOps) twoFilesFs twoFilesLoader
           noPlaylists plainDb alwaysRunning defaults sameList 1000 "/m" [keptTrack] true
           scanning).
  - split; [|split]; intros k; vm_compute; discriminate.
  - reflexivity.
  - intros t [<-|[]] Hcue. vm_compute in Hcue. discriminate Hcue.
Defined.

Lemma readCue_registers_media_witness :
  exists s',
    readCue (H := plainTrackOps) cueFs (listingParser [newTrack "/m/a.flac" 0]) 1000
      "/m/a.cue" true scanning = Ok s'
    /\ readFile (H := plainTrackOps) cueFs oneFileLoader
         (listingParser [newTrack "/m/a.flac" 0]) plainDb alwaysRunning 1000
         "/m/a.flac" true s'
       = Ok (polled s').
Proof.
  destruct (readCue (H := plainTrackOps) cueFs (listingParser [newTrack "/m/a.flac" 0]) 1000
              "/m/a.cue" true scanning) as [s'|] eqn:Hrun;
    [|vm_compute in Hrun; discriminate Hrun].
  exists s'. split; [reflexivity|].
  destruct (readCue_registers_media (H := plainTrackOps) cueFs oneFileLoader
              (listingParser [newTrack "/m/a.flac" 0]) plainDb alwaysRunning 1000
              "/m/a.cue" true scanning s' Hrun (fun _ => eq_refl))
    as (media & [->|[Hknown _]] & _ & Hskip).
  - apply (Hskip (newTrack "/m/a.flac" 0) s' true); [now left|reflexivity].
  - vm_compute in Hknown. discriminate Hknown.
Defined.

Lemma readTracks_plain_file_witness :
  (List.length (readTracks (H := plainTrackOps) twoFilesFs twoFilesLoader "/m/a.flac")
   <= 1)%nat.
Proof.
  pose proof (readTracks_plain_file (H := plainTrackOps) twoFilesFs twoFilesLoader
                "/m/a.flac" eq_refl) as Hread.
  assert (Hreader : readerForFile twoFilesLoader "/m/a.flac"
                    = Some (tableReader [("/m/a.flac"%string, (5, "A"%string));
                                         ("/m/b.flac"%string, (6, "B"%string))]))
    by reflexivity.
  rewrite Hreader in Hread. destruct Hread as (_ & _ & _ & Hlen & _). exact Hlen.
Defined.

Lemma getFiles_order_independent_witness :
  getFiles musicFs sameList [mkUrl true "/m"; mkUrl true "/m/list.m3u"]
    ["flac"%string] [] ["m3u"%string]
  = getFiles musicFs sameList [mkUrl true "/m/list.m3u"; mkUrl true "/m"]
      ["flac"%string] [] ["m3u"%string].
Proof.
  apply (getFiles_order_independent musicFs sameList
           [mkUrl true "/m"; mkUrl true "/m/list.m3u"]
           [mkUrl true "/m/list.m3u"; mkUrl true "/m"]
           ["flac"%string] [] ["m3u"%string]).
  apply perm_swap.
Defined.

Lemma scanLibrary_skipped_root_witness :
  exists s',
    scanLibrary (H := plainTrackOps) twoFilesFs twoFilesLoader noPlaylists plainDb
      alwaysRunning defaults sameList (fun _ => []) 1000 unlistedLibrary [] true
      initialState = Ok s'
    /\ runFields s' = runFields initialState.
Proof.
  destruct (scanLibrary_skipped_root (H := plainTrackOps) twoFilesFs twoFilesLoader
              noPlaylists plainDb alwaysRunning defaults sameList (fun _ => []) 1000
              unlistedLibrary [] true initialState (or_introl eq_refl))
    as (s' & Hrun & _ & Hfields & _).
  exists s'. split; [exact Hrun|exact Hfields].
Defined.

Lemma scanLibrary_cleans_up_witness :
  exists s',
    scanLibrary (H := plainTrackOps) twoFilesFs twoFilesLoader noPlaylists plainDb
      alwaysRunning defaults sameList (fun _ => []) 1000 library1 [] true initialState
    = Ok s'
    /\ runFields s' = ([], [], ∅, ∅, ∅, ∅, ∅, ∅, ∅, ∅, 0%nat).
Proof.
  destruct (scanLibrary (H := plainTrackOps) twoFilesFs twoFilesLoader noPlaylists plainDb
              alwaysRunning defaults sameList (fun _ => []) 1000 library1 [] true
              initialState) as [s'|] eqn:Hrun; [|vm_compute in Hrun; discriminate Hrun].
  exists s'. split; [reflexivity|].
  apply (scanLibrary_cleans_up (H := plainTrackOps) twoFilesFs twoFilesLoader noPlaylists
           plainDb alwaysRunning defaults sameList (fun _ => []) 1000 library1 [] true
           initialState s'); [vm_compute; discriminate|reflexivity|exact Hrun].
Defined.

Lemma scanLibraryDirectory_of_root_witness :
  scanLibrary (H := plainTrackOps) twoFilesFs twoFilesLoader noPlaylists plainDb
    alwaysRunning defaults sameList (fun _ => []) 1000 library1 [] true initialState
  = scanLibraryDirectory (H := plainTrackOps) twoFilesFs twoFilesLoader noPlaylists plainDb
      alwaysRunning defaults sameList 1000 library1 (lib_path library1) [] initialState.
Proof.
  apply (scanLibraryDirectory_of_root (H := plainTrackOps) twoFilesFs twoFilesLoader
           noPlaylists plainDb alwaysRunning defaults sameList (fun _ => []) 1000 library1 []
           initialState); [vm_compute; discriminate|reflexivity|left; reflexivity].
Defined.

End FurtherExamples.
